(** * parallelstablesort: depth-bounded fork-join stable sort

    Shallow embedding of [src/src/parallelstablesort.cpp].

    The program sorts a [std::vector<mypair>] in place with four copies of
    one recursion skeleton ([stable_sort_thread], [stable_sort_openmp],
    [stable_sort_tbb], [stable_sort_cilk]).  Each copy splits the range at
    its midpoint while the recursion depth is at most [THRESHOLD], runs the
    two halves as two tasks, waits for both and calls [std::inplace_merge];
    deeper calls fall back to [std::stable_sort].

    The vector is a [list mypair]; iterators are offsets ([nat]) into it and
    every operation rewrites the sub-range it was given.  The two library
    algorithms are embedded by their ISO C++ contract, instantiated, as at
    the call sites, with [operator<] of [std::pair]. *)

From stdpp Require Import base tactics option numbers list sorting.

Local Open Scope Z_scope.

(** ** Records *)

(** [using mypair = std::pair<std::int32_t, std::int32_t>]: the harness
    stores [(key, j)] with [j] the position at generation time.  The two
    components are only ever compared, never computed with, so they are
    kept as integers without a width. *)
Definition mypair : Type := Z * Z.

Definition key (r : mypair) : Z := r.1.
Definition original_index (r : mypair) : Z := r.2.

(** [operator<] of [std::pair]:
    [x.first < y.first || (!(y.first < x.first) && x.second < y.second)]. *)
Definition pair_lt (x y : mypair) : bool :=
  (x.1 <? y.1) || (negb (y.1 <? x.1) && (x.2 <? y.2)).

(** The order a range sorted with [operator<] ends up in: no element is
    smaller than one before it. *)
Definition pair_le (x y : mypair) : Prop := pair_lt y x = false.

(** ** Library algorithms on sequences *)

Section std_algorithms.
Context {A : Type} (lt : A → A → bool).

(** Stable merge of two sequences: the head of the right one is taken only
    when it is strictly smaller than the head of the left one. *)
Fixpoint merge (l : list A) : list A → list A :=
  fix merge_right (r : list A) : list A :=
    match l, r with
    | [], _ => r
    | _, [] => l
    | x :: l', y :: r' =>
        if lt y x then y :: merge_right r' else x :: merge l' r
    end.

(** Stable sort: every element is merged, as a one-element run, in front
    of the sorted rest, so it lands before the elements equivalent to it
    that came after it. *)
Fixpoint stable_sort_list (l : list A) : list A :=
  match l with
  | [] => []
  | x :: l' => merge [x] (stable_sort_list l')
  end.

(** [y] does not have to come before [x]: the order of a sorted range. *)
Definition not_after (x y : A) : Prop := lt y x = false.
End std_algorithms.

Local Open Scope nat_scope.

(** ** The vector and the calls made on it *)

(** What a run does that can be seen from outside the sort functions: task
    pairs created (with the depth the two lambdas capture) and calls of the
    two library algorithms with their iterator arguments. *)
Inductive event : Type :=
  | EvSpawn (first middle last : nat) (reci : Z)
  | EvInplaceMerge (first middle last : nat)
  | EvStableSort (first last : nat).

Record machine : Type := Machine {
  vec : list mypair;
  trace : list event
}.

Definition emit (e : event) (m : machine) : machine :=
  {| vec := vec m; trace := trace m ++ [e] |}.

(** The elements of [[first, last)]. *)
Definition range (v : list mypair) (first last : nat) : list mypair :=
  take (last - first) (drop first v).

(** The vector with [[first, last)] replaced by [new]. *)
Definition splice (v : list mypair) (first last : nat) (new : list mypair)
  : list mypair :=
  take first v ++ new ++ drop last v.

(** [std::inplace_merge(first, middle, last)] with [operator<]. *)
Definition std_inplace_merge (first middle last : nat) (m : machine) : machine :=
  let m := emit (EvInplaceMerge first middle last) m in
  {| vec := splice (vec m) first last
              (merge pair_lt (range (vec m) first middle)
                             (range (vec m) middle last));
     trace := trace m |}.

(** [std::stable_sort(first, last)] with [operator<]. *)
Definition std_stable_sort (first last : nat) (m : machine) : machine :=
  let m := emit (EvStableSort first last) m in
  {| vec := splice (vec m) first last
              (stable_sort_list pair_lt (range (vec m) first last));
     trace := trace m |}.

(** ** Depth counter and gate *)

(** [static auto const THRESHOLD = 3]. *)
Definition THRESHOLD : Z := 3.

(** [reci++] on a [std::int32_t], two's complement. *)
Definition int32_incr (reci : Z) : Z :=
  ((reci + 1 + 2 ^ 31) `mod` 2 ^ 32 - 2 ^ 31)%Z.

(** ** Fork and join *)

(** Which of the two tasks of the pair created for [[first, last)] gets to
    run first.  The tasks work on disjoint halves and the parent waits for
    both, so a run is one task after the other in either order. *)
Definition schedule : Type := nat → nat → bool.

Definition task : Type := machine → option machine.

Definition spawn_pair (sched : schedule) (first middle last : nat) (reci : Z)
    (lower upper : task) (m : machine) : option machine :=
  let m := emit (EvSpawn first middle last reci) m in
  if sched first last
  then m ← lower m; upper m
  else m ← upper m; lower m.

(** ** The four sort functions

    The recursive overloads take the threshold as an argument; the
    two-argument overloads below pass [THRESHOLD] and depth 0.  [fuel]
    bounds the number of nested calls. *)

Fixpoint stable_sort_thread_rec (threshold : Z) (fuel : nat) (sched : schedule)
    (first last : nat) (reci : Z) (m : machine) : option machine :=
  match fuel with
  | O => None
  | S fuel =>
      let len := last - first in
      if decide (len ≤ 1) then Some m
      else
        let reci := int32_incr reci in
        if decide (reci ≤ threshold)%Z then
          let middle := first + len / 2 in
          m ← spawn_pair sched first middle last reci
                (stable_sort_thread_rec threshold fuel sched first middle reci)
                (stable_sort_thread_rec threshold fuel sched middle last reci) m;
          Some (std_inplace_merge first middle last m)
        else Some (std_stable_sort first last m)
  end.

Fixpoint stable_sort_openmp_rec (threshold : Z) (fuel : nat) (sched : schedule)
    (first last : nat) (reci : Z) (m : machine) : option machine :=
  match fuel with
  | O => None
  | S fuel =>
      let len := last - first in
      if decide (len ≤ 1) then Some m
      else
        let reci := int32_incr reci in
        if decide (reci ≤ threshold)%Z then
          let middle := first + len / 2 in
          m ← spawn_pair sched first middle last reci
                (stable_sort_openmp_rec threshold fuel sched first middle reci)
                (stable_sort_openmp_rec threshold fuel sched middle last reci) m;
          Some (std_inplace_merge first middle last m)
        else Some (std_stable_sort first last m)
  end.

Fixpoint stable_sort_tbb_rec (threshold : Z) (fuel : nat) (sched : schedule)
    (first last : nat) (reci : Z) (m : machine) : option machine :=
  match fuel with
  | O => None
  | S fuel =>
      let len := last - first in
      if decide (len ≤ 1) then Some m
      else
        let reci := int32_incr reci in
        if decide (reci ≤ threshold)%Z then
          let middle := first + len / 2 in
          m ← spawn_pair sched first middle last reci
                (stable_sort_tbb_rec threshold fuel sched first middle reci)
                (stable_sort_tbb_rec threshold fuel sched middle last reci) m;
          Some (std_inplace_merge first middle last m)
        else Some (std_stable_sort first last m)
  end.

Fixpoint stable_sort_cilk_rec (threshold : Z) (fuel : nat) (sched : schedule)
    (first last : nat) (reci : Z) (m : machine) : option machine :=
  match fuel with
  | O => None
  | S fuel =>
      let len := last - first in
      if decide (len ≤ 1) then Some m
      else
        let reci := int32_incr reci in
        if decide (reci ≤ threshold)%Z then
          let middle := first + len / 2 in
          m ← spawn_pair sched first middle last reci
                (stable_sort_cilk_rec threshold fuel sched first middle reci)
                (stable_sort_cilk_rec threshold fuel sched middle last reci) m;
          Some (std_inplace_merge first middle last m)
        else Some (std_stable_sort first last m)
  end.

(** A vector as the harness hands it over: nothing observed yet. *)
Definition load (v : list mypair) : machine := {| vec := v; trace := [] |}.

(** Nested calls halve the range, so one more than its length is enough
    fuel for any call. *)
Definition enough_fuel (first last : nat) : nat := S (last - first).

(** The two-argument overloads, applied to [vec.begin(), vec.end()]. *)
Definition stable_sort_thread (sched : schedule) (v : list mypair) : option machine :=
  stable_sort_thread_rec THRESHOLD (enough_fuel 0 (length v)) sched 0 (length v) 0 (load v).

Definition stable_sort_openmp (sched : schedule) (v : list mypair) : option machine :=
  stable_sort_openmp_rec THRESHOLD (enough_fuel 0 (length v)) sched 0 (length v) 0 (load v).

Definition stable_sort_tbb (sched : schedule) (v : list mypair) : option machine :=
  stable_sort_tbb_rec THRESHOLD (enough_fuel 0 (length v)) sched 0 (length v) 0 (load v).

Definition stable_sort_cilk (sched : schedule) (v : list mypair) : option machine :=
  stable_sort_cilk_rec THRESHOLD (enough_fuel 0 (length v)) sched 0 (length v) 0 (load v).

(** The harness's baseline and oracle: [std::stable_sort(vec.begin(), vec.end())]. *)
Definition sequential_stable_sort (v : list mypair) : list mypair :=
  vec (std_stable_sort 0 (length v) (load v)).

(** [vec_check]: [BOOST_ASSERT(size == v2.size())], then [false] at the
    first index where the elements differ and [true] when there is none. *)
Definition vec_check (v1 v2 : list mypair) : option bool :=
  if decide (length v1 = length v2)
  then Some (forallb (λ i, bool_decide (v1 !! i = v2 !! i)) (seq 0 (length v1)))
  else None.

(** The [DEBUG] block of [elapsed_time]: the vector left by the timed
    function is copied, the copy sorted with [std::stable_sort], and the two
    compared. *)
Definition elapsed_time_debug_check (v : list mypair) : option bool :=
  let vecback := sequential_stable_sort v in
  vec_check v vecback.

(** The function the harness times: one lambda per variant. *)
Inductive backend : Type := Thread | OpenMP | TBB | Cilk.

Definition parallel_stable_sort_rec (b : backend) :=
  match b with
  | Thread => stable_sort_thread_rec
  | OpenMP => stable_sort_openmp_rec
  | TBB => stable_sort_tbb_rec
  | Cilk => stable_sort_cilk_rec
  end.

Definition parallel_stable_sort (b : backend) : schedule → list mypair → option machine :=
  match b with
  | Thread => stable_sort_thread
  | OpenMP => stable_sort_openmp
  | TBB => stable_sort_tbb
  | Cilk => stable_sort_cilk
  end.

Definition left_first : schedule := λ _ _, true.
Definition right_first : schedule := λ _ _, false.

(** ** What a run shows *)

(** The iterators an event mentions lie in [[first, last]]. *)
Definition within (first last : nat) (e : event) : Prop :=
  match e with
  | EvSpawn f mid l _ => first ≤ f ∧ f < mid ∧ mid < l ∧ l ≤ last
  | EvInplaceMerge f mid l => first ≤ f ∧ f ≤ mid ∧ mid ≤ l ∧ l ≤ last
  | EvStableSort f l => first ≤ f ∧ f ≤ l ∧ l ≤ last
  end.

(** The depth a task pair was created at lies in [(lo, hi]]. *)
Definition spawn_depth (lo hi : Z) (e : event) : Prop :=
  match e with
  | EvSpawn _ _ _ d => (lo < d ≤ hi)%Z
  | _ => True
  end.

(** The depth a task pair was created at passed the gate. *)
Definition spawn_gate (threshold : Z) (e : event) : Prop :=
  match e with
  | EvSpawn _ _ _ d => (d ≤ threshold)%Z
  | _ => True
  end.

(** Number of segments handed to [std::stable_sort]. *)
Fixpoint leaf_segments (t : list event) : nat :=
  match t with
  | [] => 0
  | EvStableSort _ _ :: t => S (leaf_segments t)
  | _ :: t => leaf_segments t
  end.

Definition depth_in_range (threshold reci : Z) : Prop :=
  (- 2 ^ 31 ≤ reci ≤ threshold ∧ threshold < 2 ^ 31 - 1)%Z.

Definition trace_ok (threshold : Z) (first last : nat) (reci : Z)
    (evs : list event) : Prop :=
  Forall (within first last) evs
  ∧ Forall (spawn_gate threshold) evs
  ∧ (depth_in_range threshold reci →
     leaf_segments evs ≤ 2 ^ Z.to_nat (threshold - reci)
     ∧ Forall (spawn_depth reci threshold) evs).

(** ** Where merged records come from *)

Inductive origin : Type := FromLeft | FromRight.

(** The records of a sub-range, each with the side it lies on. *)
Definition labelled (o : origin) (l : list mypair) : list (mypair * origin) :=
  (λ r, (r, o)) <$> l.

(** The comparison sees the record only. *)
Definition labelled_lt (x y : mypair * origin) : bool := pair_lt x.1 y.1.

(** The merge, run on records that carry their side along. *)
Definition merge_with_origins (l r : list mypair) : list (mypair * origin) :=
  merge labelled_lt (labelled FromLeft l) (labelled FromRight r).

(** Whenever a record of the left sub-range and a record of the right one
    are related by [same], the left one comes first. *)
Definition left_before_right (same : mypair → mypair → Prop)
    (out : list (mypair * origin)) : Prop :=
  ∀ i j x y,
    out !! i = Some (x, FromLeft) → out !! j = Some (y, FromRight) →
    same x y → i < j.

Definition same_key (x y : mypair) : Prop := key x = key y.

(** A right record stands before a left one only when it is smaller. *)
Definition right_first_only_if_smaller (a b : mypair * origin) : Prop :=
  a.2 = FromRight → b.2 = FromLeft → pair_lt a.1 b.1 = true.

(** ** Vocabulary of the statements *)

(** "Keys ascending, equal keys in ascending original-index order". *)
Definition ascending (x y : mypair) : Prop :=
  (key x < key y ∨ (key x = key y ∧ original_index x ≤ original_index y))%Z.

(** A two-argument overload with the threshold as a parameter. *)
Definition parallel_stable_sort_at (threshold : Z) (b : backend)
    (sched : schedule) (v : list mypair) : option machine :=
  parallel_stable_sort_rec b threshold (enough_fuel 0 (length v)) sched
    0 (length v) 0 (load v).

(** ** The harness

    [elapsed_time] and [check_performance] without what they print: the
    clock readings and the CSV text are left out, the vectors, the draws
    from the random engine and the outcome of the [DEBUG] check are kept. *)

(** [enum class Checktype]. *)
Inductive Checktype : Type := RANDOM | SORT | QUARTERSORT.

(** [static auto constexpr CHECKLOOP = 10]. *)
Definition CHECKLOOP : nat := 10.

(** [static auto constexpr N = 100]. *)
Definition N : Z := 100.

(** The lambdas [check_performance] passes as [func]. *)
Inductive timed : Type := Baseline | Parallel (b : backend).

Definition run_timed (f : timed) (sched : schedule) (v : list mypair)
  : option (list mypair) :=
  match f with
  | Baseline => Some (sequential_stable_sort v)
  | Parallel b => vec <$> parallel_stable_sort b sched v
  end.

(** [distribution(randengine)]: the value the distribution returns at the
    [c]-th draw from the engine. *)
Definition draws : Type := nat → Z.

(** [for (auto j = 0; j < n; j++) vec[j] = std::make_pair(distribution(randengine), j)],
    from index [j] on, [count] elements to go; the state is the vector and
    the number of draws made so far. *)
Fixpoint fill_from (draw : draws) (j count : nat) (st : list mypair * nat)
  : list mypair * nat :=
  match count with
  | O => st
  | S count =>
      fill_from draw (S j) count (<[j := (draw st.2, Z.of_nat j)]> st.1, S st.2)
  end.

Definition fill (draw : draws) (n : nat) (st : list mypair * nat)
  : list mypair * nat :=
  fill_from draw 0 n st.

(** The [switch (checktype)] of [elapsed_time]. *)
Definition presort (checktype : Checktype) (n : nat) (v : list mypair)
  : list mypair :=
  match checktype with
  | RANDOM => v
  | SORT => vec (std_stable_sort 0 (length v) (load v))
  | QUARTERSORT => vec (std_stable_sort 0 (n / 4) (load v))
  end.

(** The measuring loop of [elapsed_time]: fill, pre-sort, run [func]. *)
Fixpoint elapsed_time_rounds (rounds : nat) (checktype : Checktype) (f : timed)
    (sched : schedule) (draw : draws) (n : nat) (st : list mypair * nat)
  : option (list mypair * nat) :=
  match rounds with
  | O => Some st
  | S rounds =>
      let st := fill draw n st in
      v ← run_timed f sched (presort checktype n st.1);
      elapsed_time_rounds rounds checktype f sched draw n (v, st.2)
  end.

(** [elapsed_time]: [std::vector<mypair> vec(n)], [CHECKLOOP] rounds, then
    the [DEBUG] check on what the last round left.  The result is that
    vector, the outcome of the check, and the number of draws made. *)
Definition elapsed_time (checktype : Checktype) (f : timed) (sched : schedule)
    (draw : draws) (n : nat) (c : nat) : option (list mypair * option bool * nat) :=
  st ← elapsed_time_rounds CHECKLOOP checktype f sched draw n
         (replicate n (0, 0)%Z, c);
  Some (st.1, elapsed_time_debug_check st.1, st.2).

(** [n *= k] on an [int], two's complement. *)
Definition int32_mul (n k : Z) : Z :=
  ((n * k + 2 ^ 31) `mod` 2 ^ 32 - 2 ^ 31)%Z.

Section check_performance.
Context {St : Type} (row : Z → St → St).

(** The loop over [j] of [check_performance], [todo] iterations to go: a
    row is measured at [n]; in the last pass of the outer loop the loop is
    left at once, otherwise [n] is multiplied by 5 after the first row. *)
Fixpoint check_performance_inner (i j todo : nat) (st : Z * St) : Z * St :=
  match todo with
  | O => st
  | S todo =>
      let s := row st.1 st.2 in
      if decide (i = 6) then (st.1, s)
      else if decide (j = 0)
           then check_performance_inner i (S j) todo (int32_mul st.1 5, s)
           else check_performance_inner i (S j) todo (st.1, s)
  end.

(** The loop over [i], each pass ending with [n *= 2]. *)
Fixpoint check_performance_outer (i todo : nat) (st : Z * St) : Z * St :=
  match todo with
  | O => st
  | S todo =>
      let st := check_performance_inner i 0 2 st in
      check_performance_outer (S i) todo (int32_mul st.1 2, st.2)
  end.

(** [check_performance] started at [n0] ([N] in the program). *)
Definition check_performance_from (n0 : Z) (s : St) : Z * St :=
  check_performance_outer 0 7 (n0, s).
End check_performance.

(** What a run of [check_performance] has gone through: draws made, and for
    every row its size with the outcomes of the [DEBUG] checks. *)
Record report : Type := Report {
  drawn : nat;
  rows : list (Z * list (option bool))
}.

(** [std::uniform_int_distribution<std::int32_t> distribution(a, b)] on the
    engine [draw_in a b] stands for: the constructor requires [a ≤ b], and
    nothing is defined otherwise. *)
Definition uniform_int_distribution (draw_in : Z → Z → draws) (a b : Z)
  : option draws :=
  if decide (a ≤ b)%Z then Some (draw_in a b) else None.

(** The size of [std::vector<mypair> vec(n)] for an [int] [n]: a negative
    [n] does not give a vector. *)
Definition vector_size (n : Z) : option nat :=
  if decide (0 ≤ n)%Z then Some (Z.to_nat n) else None.

(** One call of [elapsed_time] inside a row, with the distribution of the
    row. *)
Definition measure (distribution : option draws) (checktype : Checktype)
    (sched : schedule) (n : Z) (f : timed)
    (acc : option (nat * list (option bool))) : option (nat * list (option bool)) :=
  a ← acc;
  draw ← distribution;
  size ← vector_size n;
  r ← elapsed_time checktype f sched draw size a.1;
  Some (r.2, a.2 ++ [r.1.2]).

(** The functions timed in one row, in the order of the calls. *)
Definition timed_functions : list timed :=
  [Baseline; Parallel Thread; Parallel OpenMP; Parallel TBB; Parallel Cilk].

(** The body of the inner loop: the distribution over [[1, n / 10]] is set
    up and one row of measurements is taken at size [n]. *)
Definition measure_row (draw_in : Z → Z → draws) (checktype : Checktype)
    (sched : schedule) (n : Z) (r : option report) : option report :=
  r ← r;
  let distribution := uniform_int_distribution draw_in 1 (n `quot` 10)%Z in
  a ← foldl (λ acc f, measure distribution checktype sched n f acc)
        (Some (drawn r, [])) timed_functions;
  Some {| drawn := a.1; rows := rows r ++ [(n, a.2)] |}.

Definition check_performance (draw_in : Z → Z → draws) (checktype : Checktype)
    (sched : schedule) (c : nat) : option report :=
  (check_performance_from (measure_row draw_in checktype sched) N
     (Some {| drawn := c; rows := [] |})).2.

(** ** Counting events *)

Fixpoint spawns (t : list event) : nat :=
  match t with
  | [] => 0
  | EvSpawn _ _ _ _ :: t => S (spawns t)
  | _ :: t => spawns t
  end.

Fixpoint merges (t : list event) : nat :=
  match t with
  | [] => 0
  | EvInplaceMerge _ _ _ :: t => S (merges t)
  | _ :: t => merges t
  end.

(** The events of a call as its arguments alone determine them: which
    branch a call takes depends on the iterators and the depth, never on the
    records. *)
Fixpoint call_events (threshold : Z) (fuel : nat) (sched : schedule)
    (first last : nat) (reci : Z) : list event :=
  match fuel with
  | O => []
  | S fuel =>
      if decide (last - first ≤ 1) then []
      else if decide (int32_incr reci ≤ threshold)%Z then
        let middle := first + (last - first) / 2 in
        let lower := call_events threshold fuel sched first middle (int32_incr reci) in
        let upper := call_events threshold fuel sched middle last (int32_incr reci) in
        EvSpawn first middle last (int32_incr reci)
          :: (if sched first last then lower ++ upper else upper ++ lower)
          ++ [EvInplaceMerge first middle last]
      else [EvStableSort first last]
  end.

(** Every segment handed to [std::stable_sort] has between [lo] and [hi]
    elements. *)
Definition leaf_sizes (lo hi : nat) (e : event) : Prop :=
  match e with
  | EvStableSort f l => lo ≤ l - f ≤ hi
  | _ => True
  end.

(** The vector a round starts from when [c] draws have been made before:
    position [j] holds the [j]-th new draw as key and [j] as original
    index. *)
Definition generated (draw : draws) (c n : nat) : list mypair :=
  (λ j, (draw (c + j), Z.of_nat j)) <$> seq 0 n.

(** The sizes [check_performance] measures when started at [n0]. *)
Definition sizes_from (n0 : Z) : list Z :=
  (λ k, n0 * k)%Z <$>
    [1; 5; 10; 50; 100; 500; 1000; 5000; 10000; 50000; 100000; 500000; 1000000]%Z.

(** Number of elements in the segments handed to [std::stable_sort]. *)
Fixpoint sequentially_sorted (t : list event) : nat :=
  match t with
  | [] => 0
  | EvStableSort f l :: t => (l - f) + sequentially_sorted t
  | _ :: t => sequentially_sorted t
  end.

(** How many of the segments handed to [std::stable_sort] contain
    position [x]. *)
Fixpoint times_sorted (x : nat) (t : list event) : nat :=
  match t with
  | [] => 0
  | EvStableSort f l :: t =>
      (if decide (f ≤ x < l) then 1 else 0) + times_sorted x t
  | _ :: t => times_sorted x t
  end.

(** The records with key [k], in the order they stand in. *)
Definition with_key (k : Z) (v : list mypair) : list mypair :=
  filter (λ r, key r = k) v.

(** Records with the same key stand in ascending order of original index. *)
Definition ties_in_index_order (v : list mypair) : Prop :=
  ∀ i j x y, v !! i = Some x → v !! j = Some y → i < j →
    key x = key y → (original_index x ≤ original_index y)%Z.

(** ** The order of records *)

Lemma pair_lt_spec (x y : mypair) :
  pair_lt x y = true ↔
  (key x < key y ∨ (key x = key y ∧ original_index x < original_index y))%Z.
Proof.
  destruct x as [k1 i1], y as [k2 i2]; unfold pair_lt, key, original_index; simpl.
  rewrite orb_true_iff, andb_true_iff, negb_true_iff, !Z.ltb_lt, Z.ltb_ge. lia.
Qed.

Lemma pair_le_spec (x y : mypair) :
  pair_le x y ↔
  (key x < key y ∨ (key x = key y ∧ original_index x ≤ original_index y))%Z.
Proof.
  unfold pair_le. rewrite <- not_true_iff_false, pair_lt_spec. lia.
Qed.

#[local] Instance pair_le_total : Total pair_le.
Proof. intros x y. rewrite !pair_le_spec. lia. Qed.

#[local] Instance pair_le_trans : Transitive pair_le.
Proof. intros x y z. rewrite !pair_le_spec. lia. Qed.

#[local] Instance pair_le_antisymm : AntiSymm (=) pair_le.
Proof.
  intros [k1 i1] [k2 i2]. rewrite !pair_le_spec. unfold key, original_index; simpl.
  intros ??. f_equal; lia.
Qed.

#[local] Instance pair_le_refl : Reflexive pair_le.
Proof. intros x. rewrite pair_le_spec. lia. Qed.

(** ** Merging and sorting sequences *)

Section merge_facts.
Context {A : Type} (lt : A → A → bool).

Lemma merge_nil_l (r : list A) : merge lt [] r = r.
Proof. by destruct r. Qed.

Lemma merge_nil_r (l : list A) : merge lt l [] = l.
Proof. by destruct l. Qed.

Lemma merge_cons (x y : A) (l r : list A) :
  merge lt (x :: l) (y :: r) =
  if lt y x then y :: merge lt (x :: l) r else x :: merge lt l (y :: r).
Proof. done. Qed.

Lemma merge_perm (l r : list A) : merge lt l r ≡ₚ l ++ r.
Proof.
  revert r. induction l as [|x l IHl]; intros r; [by rewrite merge_nil_l|].
  induction r as [|y r IHr]; [by rewrite merge_nil_r, app_nil_r|].
  rewrite merge_cons. destruct (lt y x).
  - rewrite IHr. by rewrite <- Permutation_middle.
  - by rewrite IHl.
Qed.

Lemma merge_length (l r : list A) :
  length (merge lt l r) = length l + length r.
Proof. by rewrite merge_perm, length_app. Qed.

Context (Htotal : ∀ x y, lt x y = true → lt y x = false).

Lemma merge_hd (z : A) (l r : list A) :
  HdRel (not_after lt) z l → HdRel (not_after lt) z r → HdRel (not_after lt) z (merge lt l r).
Proof.
  destruct l as [|x l], r as [|y r]; rewrite ?merge_nil_l, ?merge_nil_r; try done.
  rewrite merge_cons. intros Hl Hr. apply HdRel_inv in Hl, Hr.
  destruct (lt y x); by constructor.
Qed.

Lemma merge_sorted (l r : list A) :
  Sorted (not_after lt) l → Sorted (not_after lt) r → Sorted (not_after lt) (merge lt l r).
Proof.
  intros Hl. revert r. induction Hl as [|x l Hl IHl Hx]; intros r Hr;
    [by rewrite merge_nil_l|].
  induction Hr as [|y r Hr IHr Hy]; [rewrite merge_nil_r; by constructor|].
  rewrite merge_cons. destruct (lt y x) eqn:Hyx.
  - constructor; [done|]. apply merge_hd; [|done].
    constructor. by apply Htotal.
  - constructor; [by apply IHl; constructor|].
    apply merge_hd; [done|]. by constructor.
Qed.

Lemma stable_sort_list_cons (x : A) (l : list A) :
  stable_sort_list lt (x :: l) = merge lt [x] (stable_sort_list lt l).
Proof. done. Qed.

Lemma stable_sort_list_perm (l : list A) : stable_sort_list lt l ≡ₚ l.
Proof.
  induction l as [|x l IH]; [done|].
  by rewrite stable_sort_list_cons, merge_perm, IH.
Qed.

Lemma stable_sort_list_length (l : list A) :
  length (stable_sort_list lt l) = length l.
Proof. by rewrite stable_sort_list_perm. Qed.

Lemma stable_sort_list_sorted (l : list A) :
  Sorted (not_after lt) (stable_sort_list lt l).
Proof.
  induction l as [|x l IH]; [constructor|]. rewrite stable_sort_list_cons.
  apply merge_sorted; [|done]. by repeat constructor.
Qed.
End merge_facts.

(** Labels carried along with the elements and not looked at by the
    comparison do not change what the merge does. *)
Lemma merge_fmap {A B : Type} (lt : A → A → bool) (f : B → A) (l r : list B) :
  f <$> merge (λ a b, lt (f a) (f b)) l r = merge lt (f <$> l) (f <$> r).
Proof.
  revert r. induction l as [|x l IHl]; intros r; [by destruct r|].
  induction r as [|y r IHr]; [done|].
  rewrite !fmap_cons, !merge_cons. destruct (lt (f y) (f x)).
  - rewrite fmap_cons, IHr. by rewrite fmap_cons.
  - rewrite fmap_cons, IHl. by rewrite fmap_cons.
Qed.

(** ** Sorting records *)

Lemma pair_lt_asym (x y : mypair) : pair_lt x y = true → pair_lt y x = false.
Proof. rewrite <- not_true_iff_false, !pair_lt_spec. lia. Qed.

Lemma pair_merge_sorted (l r : list mypair) :
  Sorted pair_le l → Sorted pair_le r → Sorted pair_le (merge pair_lt l r).
Proof. apply (merge_sorted pair_lt pair_lt_asym). Qed.

Lemma pair_sort_sorted (l : list mypair) :
  Sorted pair_le (stable_sort_list pair_lt l).
Proof. apply (stable_sort_list_sorted pair_lt pair_lt_asym). Qed.

(** A multiset of records has one ascending arrangement. *)
Lemma pair_sorted_unique (l1 l2 : list mypair) :
  Sorted pair_le l1 → Sorted pair_le l2 → l1 ≡ₚ l2 → l1 = l2.
Proof. apply (Sorted_unique pair_le). Qed.

Lemma pair_sort_of_sorted (l : list mypair) :
  Sorted pair_le l → stable_sort_list pair_lt l = l.
Proof.
  intros Hl. apply pair_sorted_unique; [apply pair_sort_sorted|done|].
  apply stable_sort_list_perm.
Qed.

(** Sorting two halves and merging them is sorting the whole. *)
Lemma pair_merge_sort_app (l r : list mypair) :
  merge pair_lt (stable_sort_list pair_lt l) (stable_sort_list pair_lt r)
  = stable_sort_list pair_lt (l ++ r).
Proof.
  apply pair_sorted_unique.
  - apply pair_merge_sorted; apply pair_sort_sorted.
  - apply pair_sort_sorted.
  - by rewrite merge_perm, !stable_sort_list_perm.
Qed.

Lemma pair_sort_short (l : list mypair) :
  length l ≤ 1 → stable_sort_list pair_lt l = l.
Proof. destruct l as [|x [|y l]]; simpl; [done|done|lia]. Qed.

(** ** Sub-ranges of the vector *)

Lemma range_app (p x q : list mypair) (first last : nat) :
  length p = first → length x = last - first →
  range (p ++ x ++ q) first last = x.
Proof.
  intros Hp Hx. unfold range.
  rewrite drop_app_length' by done. by rewrite take_app_length'.
Qed.

Lemma splice_app (p x q new : list mypair) (first last : nat) :
  length p = first → length x = last - first → first ≤ last →
  splice (p ++ x ++ q) first last new = p ++ new ++ q.
Proof.
  intros Hp Hx Hle. unfold splice.
  rewrite take_app_length' by done.
  rewrite (app_assoc p x q), drop_app_length'; [done|]. rewrite length_app. lia.
Qed.

(** A vector is what lies before a range, the range, and what lies after. *)
Lemma vec_cut (v : list mypair) (first last : nat) :
  first ≤ last ≤ length v →
  ∃ p x q, v = p ++ x ++ q ∧ length p = first ∧ length x = last - first
           ∧ p = take first v ∧ x = range v first last ∧ q = drop last v.
Proof.
  intros Hb. exists (take first v), (range v first last), (drop last v).
  split_and!; try done.
  - unfold range. rewrite <- (take_drop first v) at 1. f_equal.
    rewrite <- (take_drop (last - first) (drop first v)) at 1. f_equal.
    rewrite drop_drop. f_equal. lia.
  - rewrite length_take. lia.
  - unfold range. rewrite length_take, length_drop. lia.
Qed.

Lemma vec_cut3 (v : list mypair) (first middle last : nat) :
  first ≤ middle → middle ≤ last → last ≤ length v →
  ∃ p a b q, v = p ++ a ++ b ++ q ∧ length p = first
             ∧ length a = middle - first ∧ length b = last - middle
             ∧ a = range v first middle ∧ b = range v middle last
             ∧ a ++ b = range v first last.
Proof.
  intros H1 H2 H3.
  destruct (vec_cut v first last) as (p & x & q & Hv & Hp & Hx & _ & Hxr & _); [lia|].
  destruct (vec_cut x 0 (middle - first)) as (n & a & b & Hxab & Hn & Ha & _ & _ & _); [lia|].
  destruct n; [|done]. simpl in Hxab.
  assert (Hb : length b = last - middle).
  { apply (f_equal length) in Hxab. rewrite length_app in Hxab. lia. }
  exists p, a, b, q. rewrite Hxab in Hv, Hxr. rewrite <- app_assoc in Hv.
  split_and!; try done; try lia.
  - rewrite Hv. apply eq_sym, range_app; [done|lia].
  - rewrite Hv. rewrite (app_assoc p a). apply eq_sym, range_app; [|done].
    rewrite length_app. lia.
Qed.

Lemma splice_same (v : list mypair) (first last : nat) :
  first ≤ last ≤ length v → splice v first last (range v first last) = v.
Proof.
  intros Hb. destruct (vec_cut v first last Hb) as (p & x & q & Hv & Hp & Hx & _ & Hxr & _).
  rewrite <- Hxr. rewrite Hv at 1. rewrite splice_app by (done || lia). done.
Qed.

Section four_parts.
Context (p a b q : list mypair) (first middle last : nat).
Context (Hp : length p = first) (Ha : length a = middle - first).
Context (Hb : length b = last - middle).
Context (Hfm : first ≤ middle) (Hml : middle ≤ last).

Lemma range_lower : range (p ++ a ++ b ++ q) first middle = a.
Proof. by apply range_app. Qed.

Lemma range_upper : range (p ++ a ++ b ++ q) middle last = b.
Proof.
  rewrite (app_assoc p a). apply range_app; [|done]. rewrite length_app. lia.
Qed.

Lemma range_whole : range (p ++ a ++ b ++ q) first last = a ++ b.
Proof.
  rewrite (app_assoc a b q). apply range_app; [done|]. rewrite length_app. lia.
Qed.

Lemma splice_lower (new : list mypair) :
  splice (p ++ a ++ b ++ q) first middle new = p ++ new ++ b ++ q.
Proof. by apply splice_app. Qed.

Lemma splice_upper (new : list mypair) :
  splice (p ++ a ++ b ++ q) middle last new = p ++ a ++ new ++ q.
Proof.
  rewrite (app_assoc p a), (app_assoc p a (new ++ q)).
  apply splice_app; [|done..]. rewrite length_app. lia.
Qed.

Lemma splice_whole (new : list mypair) :
  splice (p ++ a ++ b ++ q) first last new = p ++ new ++ q.
Proof.
  rewrite (app_assoc a b q). apply splice_app; [done| |lia].
  rewrite length_app. lia.
Qed.
End four_parts.

(** ** The recursion *)

Lemma variants_agree (b : backend) :
  parallel_stable_sort_rec b = stable_sort_thread_rec.
Proof. by destruct b. Qed.

Lemma stable_sort_thread_rec_unfold threshold fuel sched first last reci m :
  stable_sort_thread_rec threshold (S fuel) sched first last reci m =
  if decide (last - first ≤ 1) then Some m
  else if decide (int32_incr reci ≤ threshold)%Z then
    m ← spawn_pair sched first (first + (last - first) / 2) last (int32_incr reci)
          (stable_sort_thread_rec threshold fuel sched
             first (first + (last - first) / 2) (int32_incr reci))
          (stable_sort_thread_rec threshold fuel sched
             (first + (last - first) / 2) last (int32_incr reci)) m;
    Some (std_inplace_merge first (first + (last - first) / 2) last m)
  else Some (std_stable_sort first last m).
Proof. done. Qed.

(** The midpoint of a range of two or more elements lies strictly inside. *)
Lemma midpoint_inside (first last : nat) :
  ¬ last - first ≤ 1 →
  first < first + (last - first) / 2 < last.
Proof.
  intros Hlen.
  assert (0 < (last - first) / 2) by (apply Nat.div_str_pos; lia).
  assert ((last - first) / 2 < last - first) by (apply Nat.div_lt; lia).
  lia.
Qed.

(** What a call leaves in the vector: the range it was given, sorted as
    [std::stable_sort] sorts it, and everything else as it was. *)
Lemma stable_sort_thread_rec_vec threshold fuel :
  ∀ sched first last reci m m',
    first ≤ last ≤ length (vec m) →
    stable_sort_thread_rec threshold fuel sched first last reci m = Some m' →
    vec m' = splice (vec m) first last
               (stable_sort_list pair_lt (range (vec m) first last)).
Proof.
  induction fuel as [|fuel IH]; intros sched first last reci m m' Hb Hrun; [done|].
  rewrite stable_sort_thread_rec_unfold in Hrun.
  destruct (decide (last - first ≤ 1)) as [Hshort|Hlong].
  { injection Hrun as <-. rewrite pair_sort_short, splice_same; [done..|].
    unfold range. rewrite length_take. lia. }
  destruct (decide (int32_incr reci ≤ threshold)%Z) as [Hpar|Hseq];
    [|by injection Hrun as <-].
  pose proof (midpoint_inside first last Hlong) as Hmid.
  set (middle := first + (last - first) / 2) in *.
  set (reci' := int32_incr reci) in *.
  destruct (vec_cut3 (vec m) first middle last)
    as (p & a & b & q & Hv & Hp & Ha & Hlb & Hra & Hrb & Hrab); [lia..|].
  rewrite <- Hrab. rewrite Hv at 1.
  rewrite (splice_whole p a b q first middle last) by (done || lia).
  rewrite <- pair_merge_sort_app.
  set (a' := stable_sort_list pair_lt a). set (b' := stable_sort_list pair_lt b).
  assert (Ha' : length a' = middle - first)
    by (unfold a'; by rewrite stable_sort_list_length).
  assert (Hb' : length b' = last - middle)
    by (unfold b'; by rewrite stable_sort_list_length).
  assert (Hlen : length (vec m) = first + (last - first) + length q).
  { rewrite Hv, !length_app. lia. }
  unfold spawn_pair in Hrun.
  assert (Hfin : vec m' = splice (p ++ a' ++ b' ++ q) first last (merge pair_lt a' b')).
  { destruct (sched first last).
    - destruct (stable_sort_thread_rec threshold fuel sched first middle reci' _)
        as [m1|] eqn:H1; [|done]. simpl in Hrun.
      destruct (stable_sort_thread_rec threshold fuel sched middle last reci' _)
        as [m2|] eqn:H2; [|done]. simpl in Hrun. injection Hrun as <-.
      apply IH in H1; [|simpl; lia]. simpl in H1.
      rewrite <- Hra in H1. rewrite Hv in H1 at 1.
      rewrite (splice_lower p a b q first middle) in H1 by (done || lia).
      fold a' in H1.
      apply IH in H2; [|rewrite H1, !length_app; lia].
      rewrite H1 in H2.
      rewrite (range_upper p a' b q first middle last),
        (splice_upper p a' b q first middle last) in H2 by (done || lia).
      fold b' in H2. simpl. rewrite H2.
      by rewrite (range_lower p a' b' q first middle),
        (range_upper p a' b' q first middle last) by (done || lia).
    - destruct (stable_sort_thread_rec threshold fuel sched middle last reci' _)
        as [m1|] eqn:H1; [|done]. simpl in Hrun.
      destruct (stable_sort_thread_rec threshold fuel sched first middle reci' _)
        as [m2|] eqn:H2; [|done]. simpl in Hrun. injection Hrun as <-.
      apply IH in H1; [|simpl; lia]. simpl in H1.
      rewrite <- Hrb in H1. rewrite Hv in H1 at 1.
      rewrite (splice_upper p a b q first middle last) in H1 by (done || lia).
      fold b' in H1.
      apply IH in H2; [|rewrite H1, !length_app; lia].
      rewrite H1 in H2.
      rewrite (range_lower p a b' q first middle),
        (splice_lower p a b' q first middle) in H2 by (done || lia).
      fold a' in H2. simpl. rewrite H2.
      by rewrite (range_lower p a' b' q first middle),
        (range_upper p a' b' q first middle last) by (done || lia). }
  rewrite Hfin. by rewrite (splice_whole p a' b' q first middle last) by (done || lia).
Qed.

(** Every call returns: the two nested calls get ranges that are shorter
    than the one they were split from. *)
Lemma stable_sort_thread_rec_total threshold fuel :
  ∀ sched first last reci m,
    last - first < fuel →
    is_Some (stable_sort_thread_rec threshold fuel sched first last reci m).
Proof.
  induction fuel as [|fuel IH]; intros sched first last reci m Hfuel; [lia|].
  rewrite stable_sort_thread_rec_unfold.
  destruct (decide (last - first ≤ 1)) as [Hshort|Hlong]; [done|].
  destruct (decide (int32_incr reci ≤ threshold)%Z); [|done].
  pose proof (midpoint_inside first last Hlong) as Hmid.
  set (middle := first + (last - first) / 2) in *.
  unfold spawn_pair. destruct (sched first last).
  - destruct (IH sched first middle (int32_incr reci)
                (emit (EvSpawn first middle last (int32_incr reci)) m)) as [m1 ->]; [lia|].
    simpl. destruct (IH sched middle last (int32_incr reci) m1) as [m2 ->]; [lia|].
    done.
  - destruct (IH sched middle last (int32_incr reci)
                (emit (EvSpawn first middle last (int32_incr reci)) m)) as [m1 ->]; [lia|].
    simpl. destruct (IH sched first middle (int32_incr reci) m1) as [m2 ->]; [lia|].
    done.
Qed.

(** More fuel than needed changes nothing. *)
Lemma stable_sort_thread_rec_fuel threshold fuel :
  ∀ fuel' sched first last reci m m',
    fuel ≤ fuel' →
    stable_sort_thread_rec threshold fuel sched first last reci m = Some m' →
    stable_sort_thread_rec threshold fuel' sched first last reci m = Some m'.
Proof.
  induction fuel as [|fuel IH]; intros fuel' sched first last reci m m' Hle Hrun; [done|].
  destruct fuel' as [|fuel']; [lia|].
  rewrite stable_sort_thread_rec_unfold in *.
  destruct (decide (last - first ≤ 1)); [done|].
  destruct (decide (int32_incr reci ≤ threshold)%Z); [|done].
  unfold spawn_pair in *. destruct (sched first last).
  - destruct (stable_sort_thread_rec threshold fuel sched first _ _ _)
      as [m1|] eqn:H1; [|done]. simpl in Hrun.
    destruct (stable_sort_thread_rec threshold fuel sched _ last _ _)
      as [m2|] eqn:H2; [|done].
    rewrite (IH fuel' _ _ _ _ _ m1) by (done || lia). simpl.
    by rewrite (IH fuel' _ _ _ _ _ m2) by (done || lia).
  - destruct (stable_sort_thread_rec threshold fuel sched _ last _ _)
      as [m1|] eqn:H1; [|done]. simpl in Hrun.
    destruct (stable_sort_thread_rec threshold fuel sched first _ _ _)
      as [m2|] eqn:H2; [|done].
    rewrite (IH fuel' _ _ _ _ _ m1) by (done || lia). simpl.
    by rewrite (IH fuel' _ _ _ _ _ m2) by (done || lia).
Qed.

(** The vector after a call, for any variant, threshold, depth and schedule. *)
Lemma parallel_stable_sort_rec_vec b threshold fuel sched first last reci m :
  first ≤ last ≤ length (vec m) → last - first < fuel →
  ∃ m', parallel_stable_sort_rec b threshold fuel sched first last reci m = Some m'
        ∧ vec m' = splice (vec m) first last
                     (stable_sort_list pair_lt (range (vec m) first last)).
Proof.
  intros Hb Hfuel. rewrite variants_agree.
  destruct (stable_sort_thread_rec_total threshold fuel sched first last reci m Hfuel)
    as [m' Hrun].
  exists m'. split; [done|]. by eapply stable_sort_thread_rec_vec.
Qed.

Lemma entry_unfold b sched v :
  parallel_stable_sort b sched v =
  parallel_stable_sort_rec b THRESHOLD (enough_fuel 0 (length v)) sched
    0 (length v) 0 (load v).
Proof. by destruct b. Qed.

Lemma range_all (v : list mypair) : range v 0 (length v) = v.
Proof. unfold range. rewrite drop_0, Nat.sub_0_r. apply firstn_all. Qed.

Lemma splice_all (v new : list mypair) : splice v 0 (length v) new = new.
Proof. unfold splice. rewrite take_0, drop_all, app_nil_r. done. Qed.

Lemma sequential_stable_sort_eq (v : list mypair) :
  sequential_stable_sort v = stable_sort_list pair_lt v.
Proof.
  unfold sequential_stable_sort, std_stable_sort. simpl.
  by rewrite splice_all, range_all.
Qed.

(** The vector after one of the two-argument overloads, run at any
    threshold. *)
Lemma parallel_stable_sort_at_vec b threshold sched v :
  ∃ m, parallel_stable_sort_rec b threshold (enough_fuel 0 (length v)) sched
         0 (length v) 0 (load v) = Some m
       ∧ vec m = stable_sort_list pair_lt v.
Proof.
  destruct (parallel_stable_sort_rec_vec b threshold (enough_fuel 0 (length v))
              sched 0 (length v) 0 (load v)) as (m & Hrun & Hvec).
  - simpl. lia.
  - unfold enough_fuel. lia.
  - exists m. split; [done|]. rewrite Hvec. simpl. by rewrite splice_all, range_all.
Qed.

(** The order in which the two tasks of a pair run does not show in the
    vector. *)
Lemma schedule_irrelevant b threshold fuel sched sched' first last reci m :
  first ≤ last ≤ length (vec m) → last - first < fuel →
  vec <$> parallel_stable_sort_rec b threshold fuel sched first last reci m
  = vec <$> parallel_stable_sort_rec b threshold fuel sched' first last reci m.
Proof.
  intros Hb Hfuel.
  destruct (parallel_stable_sort_rec_vec b threshold fuel sched first last reci m)
    as (m1 & -> & Hv1); [done..|].
  destruct (parallel_stable_sort_rec_vec b threshold fuel sched' first last reci m)
    as (m2 & -> & Hv2); [done..|].
  simpl. by rewrite Hv1, Hv2.
Qed.

Lemma leaf_segments_app (t1 t2 : list event) :
  leaf_segments (t1 ++ t2) = leaf_segments t1 + leaf_segments t2.
Proof.
  induction t1 as [|e t1 IH]; [done|]. destruct e; simpl; rewrite IH; lia.
Qed.

Lemma within_mono (f l f' l' : nat) (e : event) :
  f' ≤ f → l ≤ l' → within f l e → within f' l' e.
Proof. destruct e; simpl; lia. Qed.

Lemma spawn_depth_mono (lo hi lo' : Z) (e : event) :
  (lo' ≤ lo)%Z → spawn_depth lo hi e → spawn_depth lo' hi e.
Proof. destruct e; simpl; lia. Qed.

Lemma int32_incr_small (reci : Z) :
  (- 2 ^ 31 ≤ reci < 2 ^ 31 - 1)%Z → int32_incr reci = (reci + 1)%Z.
Proof. intros H. unfold int32_incr. rewrite Z.mod_small; lia. Qed.

Lemma pow2_pos (n : nat) : 1 ≤ 2 ^ n.
Proof. induction n as [|n IH]; simpl; lia. Qed.

Lemma trace_ok_fork threshold first last reci evs1 evs2 :
  let middle := first + (last - first) / 2 in
  ¬ last - first ≤ 1 →
  (int32_incr reci ≤ threshold)%Z →
  trace_ok threshold first middle (int32_incr reci) evs1 →
  trace_ok threshold middle last (int32_incr reci) evs2 →
  trace_ok threshold first last reci
    (EvSpawn first middle last (int32_incr reci)
       :: evs1 ++ evs2 ++ [EvInplaceMerge first middle last])
  ∧ trace_ok threshold first last reci
    (EvSpawn first middle last (int32_incr reci)
       :: evs2 ++ evs1 ++ [EvInplaceMerge first middle last]).
Proof.
  intros middle Hlong Hgate (Hw1 & Hg1 & Hd1) (Hw2 & Hg2 & Hd2).
  pose proof (midpoint_inside first last Hlong) as Hmid. fold middle in Hmid.
  assert (Hw1' : Forall (within first last) evs1).
  { eapply Forall_impl; [exact Hw1|]. intros e. apply within_mono; lia. }
  assert (Hw2' : Forall (within first last) evs2).
  { eapply Forall_impl; [exact Hw2|]. intros e. apply within_mono; lia. }
  assert (Hdeep : depth_in_range threshold reci →
    depth_in_range threshold (int32_incr reci)
    ∧ int32_incr reci = (reci + 1)%Z
    ∧ 2 ^ Z.to_nat (threshold - reci)
      = 2 * 2 ^ Z.to_nat (threshold - int32_incr reci)).
  { intros [Hr Ht]. assert (Hi : int32_incr reci = (reci + 1)%Z)
      by (apply int32_incr_small; lia).
    rewrite Hi in *. split; [unfold depth_in_range; lia|]. split; [done|].
    replace (Z.to_nat (threshold - reci))
      with (S (Z.to_nat (threshold - (reci + 1)))) by lia.
    by rewrite Nat.pow_succ_r'. }
  split.
  - split_and!.
    + constructor; [simpl; lia|]. rewrite !Forall_app. split_and!; try done.
      constructor; [simpl; lia|done].
    + constructor; [done|]. rewrite !Forall_app. split_and!; try done.
      by constructor.
    + intros Hin. destruct (Hdeep Hin) as (Hin' & Hi & Hpow).
      destruct (Hd1 Hin') as [Hl1 Hs1]. destruct (Hd2 Hin') as [Hl2 Hs2].
      split.
      * simpl. rewrite !leaf_segments_app. simpl. lia.
      * constructor; [simpl; lia|]. rewrite !Forall_app. split_and!.
        -- eapply Forall_impl; [exact Hs1|]. intros e. apply spawn_depth_mono. lia.
        -- eapply Forall_impl; [exact Hs2|]. intros e. apply spawn_depth_mono. lia.
        -- by constructor.
  - split_and!.
    + constructor; [simpl; lia|]. rewrite !Forall_app. split_and!; try done.
      constructor; [simpl; lia|done].
    + constructor; [done|]. rewrite !Forall_app. split_and!; try done.
      by constructor.
    + intros Hin. destruct (Hdeep Hin) as (Hin' & Hi & Hpow).
      destruct (Hd1 Hin') as [Hl1 Hs1]. destruct (Hd2 Hin') as [Hl2 Hs2].
      split.
      * simpl. rewrite !leaf_segments_app. simpl. lia.
      * constructor; [simpl; lia|]. rewrite !Forall_app. split_and!.
        -- eapply Forall_impl; [exact Hs2|]. intros e. apply spawn_depth_mono. lia.
        -- eapply Forall_impl; [exact Hs1|]. intros e. apply spawn_depth_mono. lia.
        -- by constructor.
Qed.

(** The events of a call: all inside its range, task pairs only at depths
    the gate lets through, and no more sequential sorts than the remaining
    depth allows. *)
Lemma stable_sort_thread_rec_trace threshold fuel :
  ∀ sched first last reci m m',
    stable_sort_thread_rec threshold fuel sched first last reci m = Some m' →
    ∃ evs, trace m' = trace m ++ evs ∧ trace_ok threshold first last reci evs.
Proof.
  induction fuel as [|fuel IH]; intros sched first last reci m m' Hrun; [done|].
  rewrite stable_sort_thread_rec_unfold in Hrun.
  destruct (decide (last - first ≤ 1)) as [Hshort|Hlong].
  { injection Hrun as <-. exists []. rewrite app_nil_r. split; [done|].
    split_and!; [constructor..|]. intros _. split; [|constructor].
    simpl. apply Nat.lt_le_incl, Nat.lt_le_trans with 1; [lia|apply pow2_pos]. }
  destruct (decide (int32_incr reci ≤ threshold)%Z) as [Hpar|Hseq].
  2:{ injection Hrun as <-. exists [EvStableSort first last]. split; [done|].
      split_and!.
      - constructor; [simpl; lia|constructor].
      - by repeat constructor.
      - intros _. split; [apply pow2_pos|by repeat constructor]. }
  unfold spawn_pair in Hrun.
  set (middle := first + (last - first) / 2) in *.
  set (reci' := int32_incr reci) in *.
  destruct (sched first last).
  - destruct (stable_sort_thread_rec threshold fuel sched first middle reci' _)
      as [m1|] eqn:H1; [|done]. simpl in Hrun.
    destruct (stable_sort_thread_rec threshold fuel sched middle last reci' _)
      as [m2|] eqn:H2; [|done]. simpl in Hrun. injection Hrun as <-.
    apply IH in H1 as (evs1 & Ht1 & Hok1). apply IH in H2 as (evs2 & Ht2 & Hok2).
    exists (EvSpawn first middle last reci'
              :: evs1 ++ evs2 ++ [EvInplaceMerge first middle last]).
    split; [|by apply (trace_ok_fork threshold first last reci evs1 evs2)].
    simpl. rewrite Ht2, Ht1. simpl. by rewrite <- !app_assoc.
  - destruct (stable_sort_thread_rec threshold fuel sched middle last reci' _)
      as [m1|] eqn:H1; [|done]. simpl in Hrun.
    destruct (stable_sort_thread_rec threshold fuel sched first middle reci' _)
      as [m2|] eqn:H2; [|done]. simpl in Hrun. injection Hrun as <-.
    apply IH in H1 as (evs1 & Ht1 & Hok1). apply IH in H2 as (evs2 & Ht2 & Hok2).
    exists (EvSpawn first middle last reci'
              :: evs1 ++ evs2 ++ [EvInplaceMerge first middle last]).
    split; [|by apply (trace_ok_fork threshold first last reci evs2 evs1)].
    simpl. rewrite Ht2, Ht1. simpl. by rewrite <- !app_assoc.
Qed.

Lemma strongly_sorted_lookup {A : Type} (R : relation A) (l : list A) :
  StronglySorted R l →
  ∀ i j a b, i < j → l !! i = Some a → l !! j = Some b → R a b.
Proof.
  induction 1 as [|x l Hl IH Hx]; intros i j a b Hij Hi Hj; [done|].
  destruct j as [|j]; [lia|]. destruct i as [|i]; simpl in *.
  - injection Hi as ->. rewrite Forall_forall in Hx. apply Hx.
    by eapply list_elem_of_lookup_2.
  - eapply IH; [|done..]. lia.
Qed.

Lemma labelled_fst (o : origin) (l : list mypair) : (labelled o l).*1 = l.
Proof.
  unfold labelled. rewrite <- list_fmap_compose. apply list_fmap_id.
Qed.

Lemma labelled_elem (o : origin) (l : list mypair) (a : mypair * origin) :
  a ∈ labelled o l → a.2 = o ∧ a.1 ∈ l.
Proof.
  unfold labelled. rewrite list_elem_of_fmap. by intros (r & -> & Hr).
Qed.

Lemma merge_with_origins_erase (l r : list mypair) :
  (merge_with_origins l r).*1 = merge pair_lt l r.
Proof.
  unfold merge_with_origins, labelled_lt.
  by rewrite (merge_fmap pair_lt fst), !labelled_fst.
Qed.

Lemma one_side_sorted (o : origin) (out : list (mypair * origin)) :
  Forall (λ a, a.2 = o) out → StronglySorted right_first_only_if_smaller out.
Proof.
  induction 1 as [|a out Ha Hout IH]; constructor; [done|].
  eapply Forall_impl; [exact Hout|]. intros b Hb Har Hbl.
  rewrite Ha in Har. rewrite Hb in Hbl. destruct o; done.
Qed.

Lemma labelled_one_side (o : origin) (l : list mypair) :
  Forall (λ a : mypair * origin, a.2 = o) (labelled o l).
Proof. apply Forall_forall. intros a Ha. by apply labelled_elem in Ha as [? _]. Qed.

Lemma pair_lt_le_trans (x y z : mypair) :
  pair_lt x y = true → pair_le y z → pair_lt x z = true.
Proof. rewrite pair_le_spec, !pair_lt_spec. lia. Qed.

Lemma merge_with_origins_sorted (l r : list mypair) :
  StronglySorted pair_le l →
  StronglySorted right_first_only_if_smaller (merge_with_origins l r).
Proof.
  unfold merge_with_origins. intros Hl. revert r.
  induction Hl as [|x l Hl IHl Hx]; intros r.
  { change (labelled FromLeft []) with ([] : list (mypair * origin)).
    rewrite merge_nil_l. eapply one_side_sorted, labelled_one_side. }
  induction r as [|y r IHr].
  { change (labelled FromRight []) with ([] : list (mypair * origin)).
    rewrite merge_nil_r. eapply one_side_sorted, (labelled_one_side _ (x :: l)). }
  change (labelled FromLeft (x :: l)) with ((x, FromLeft) :: labelled FromLeft l) in *.
  change (labelled FromRight (y :: r)) with ((y, FromRight) :: labelled FromRight r).
  rewrite merge_cons.
  change (labelled_lt (y, FromRight) (x, FromLeft)) with (pair_lt y x).
  destruct (pair_lt y x) eqn:Hyx.
  - constructor; [done|]. apply Forall_forall. intros b Hb _ Hbl.
    change ((y, FromRight).1) with y.
    rewrite merge_perm in Hb. apply elem_of_app in Hb as [Hb|Hb].
    + apply elem_of_cons in Hb as [->|Hb]; [done|].
      apply labelled_elem in Hb as [_ Hb].
      rewrite Forall_forall in Hx. eapply pair_lt_le_trans; [done|]. by apply Hx.
    + apply labelled_elem in Hb as [Hb _]. congruence.
  - constructor; [apply (IHl (y :: r))|]. apply Forall_forall. by intros b _ ? _.
Qed.

(** ** Helper facts for the statements below *)

Lemma vec_check_refl (v : list mypair) : vec_check v v = Some true.
Proof.
  unfold vec_check. rewrite decide_True by done. f_equal.
  apply forallb_forall. intros i _. by apply bool_decide_eq_true.
Qed.

Lemma ascending_sorted (v : list mypair) :
  Sorted ascending v → Sorted pair_le v.
Proof.
  induction 1 as [|x v Hv IH Hx]; constructor; [done|].
  destruct Hx; constructor. by apply pair_le_spec.
Qed.

Lemma pair_sort_strongly_sorted (v : list mypair) :
  StronglySorted pair_le (stable_sort_list pair_lt v).
Proof. apply Sorted_StronglySorted; [apply _|apply pair_sort_sorted]. Qed.

Lemma strongly_sorted_strict (l : list mypair) :
  StronglySorted pair_le l → NoDup l →
  StronglySorted (λ x y, pair_lt x y = true) l.
Proof.
  induction 1 as [|x l Hl IH Hx]; intros Hnd; [constructor|].
  apply NoDup_cons in Hnd as [Hnotin Hnd]. constructor; [by apply IH|].
  rewrite Forall_forall in *. intros y Hy. specialize (Hx y Hy).
  assert (x ≠ y) by (intros ->; done).
  apply pair_le_spec in Hx. apply pair_lt_spec.
  destruct x as [k1 i1], y as [k2 i2]; unfold key, original_index in *; simpl in *.
  destruct (decide (i1 = i2)); [|lia].
  destruct (decide (k1 = k2)); [|lia]. congruence.
Qed.

Lemma fork_trace_head threshold fuel sched first last reci m m' :
  stable_sort_thread_rec threshold (S fuel) sched first last reci m = Some m' →
  ¬ last - first ≤ 1 → (int32_incr reci ≤ threshold)%Z →
  ∃ rest, trace m' = trace m
            ++ EvSpawn first (first + (last - first) / 2) last (int32_incr reci)
            :: rest.
Proof.
  intros Hrun Hlong Hgate. rewrite stable_sort_thread_rec_unfold in Hrun.
  rewrite decide_False, decide_True in Hrun by done.
  unfold spawn_pair in Hrun. destruct (sched first last).
  - destruct (stable_sort_thread_rec threshold fuel sched first _ _ _)
      as [m1|] eqn:H1; [|done]. simpl in Hrun.
    destruct (stable_sort_thread_rec threshold fuel sched _ last _ _)
      as [m2|] eqn:H2; [|done]. simpl in Hrun. injection Hrun as <-.
    apply stable_sort_thread_rec_trace in H1 as (evs1 & Ht1 & _).
    apply stable_sort_thread_rec_trace in H2 as (evs2 & Ht2 & _).
    eexists. simpl. rewrite Ht2, Ht1. simpl. rewrite <- !app_assoc. done.
  - destruct (stable_sort_thread_rec threshold fuel sched _ last _ _)
      as [m1|] eqn:H1; [|done]. simpl in Hrun.
    destruct (stable_sort_thread_rec threshold fuel sched first _ _ _)
      as [m2|] eqn:H2; [|done]. simpl in Hrun. injection Hrun as <-.
    apply stable_sort_thread_rec_trace in H1 as (evs1 & Ht1 & _).
    apply stable_sort_thread_rec_trace in H2 as (evs2 & Ht2 & _).
    eexists. simpl. rewrite Ht2, Ht1. simpl. rewrite <- !app_assoc. done.
Qed.

(** ** Properties of the sort *)

(** C1. For every sequence of records and each of the four variants, the
    sort returns and leaves the records in ascending order of key; of two
    records with the same key, the one with the smaller original index
    stands first. *)
Theorem sorted_by_key_then_index (b : backend) (sched : schedule) (v : list mypair) :
  ∃ m, parallel_stable_sort b sched v = Some m
    ∧ vec m ≡ₚ v
    ∧ (∀ i j x y, vec m !! i = Some x → vec m !! j = Some y →
         i < j → (key x ≤ key y)%Z)
    ∧ (∀ i j x y, vec m !! i = Some x → vec m !! j = Some y →
         key x = key y → (original_index x < original_index y)%Z → i < j).
Proof.
  rewrite entry_unfold.
  destruct (parallel_stable_sort_at_vec b THRESHOLD sched v) as (m & Hrun & Hvec).
  exists m. split; [done|]. rewrite Hvec.
  pose proof (pair_sort_strongly_sorted v) as Hs.
  split_and!.
  - apply stable_sort_list_perm.
  - intros i j x y Hi Hj Hij.
    pose proof (strongly_sorted_lookup _ _ Hs i j x y Hij Hi Hj) as Hle.
    apply pair_le_spec in Hle. lia.
  - intros i j x y Hi Hj Hk Hidx.
    destruct (decide (i < j)) as [|Hge]; [done|]. exfalso.
    destruct (decide (i = j)) as [->|Hne].
    + rewrite Hi in Hj. injection Hj as ->. lia.
    + assert (Hji : j < i) by lia.
      pose proof (strongly_sorted_lookup _ _ Hs j i y x Hji Hj Hi) as Hle.
      apply pair_le_spec in Hle. lia.
Qed.

(** C2. For every input and each variant, the vector after the parallel
    sort is, element for element, the vector [std::stable_sort] produces
    from a copy of the input: [vec_check] accepts the pair, and so does the
    check the harness runs on the sorted vector. *)
Theorem matches_sequential_stable_sort (b : backend) (sched : schedule)
    (v : list mypair) :
  ∃ m, parallel_stable_sort b sched v = Some m
    ∧ vec m = sequential_stable_sort v
    ∧ vec_check (vec m) (sequential_stable_sort v) = Some true
    ∧ elapsed_time_debug_check (vec m) = Some true.
Proof.
  rewrite entry_unfold.
  destruct (parallel_stable_sort_at_vec b THRESHOLD sched v) as (m & Hrun & Hvec).
  exists m. unfold elapsed_time_debug_check.
  rewrite !sequential_stable_sort_eq, Hvec.
  rewrite (pair_sort_of_sorted (stable_sort_list pair_lt v)) by apply pair_sort_sorted.
  split_and!; [done..|apply vec_check_refl|apply vec_check_refl].
Qed.

(** C5. Every sequence is accepted: each variant returns a result for it.
    For a sequence of length 0 or 1 the result is the input, reached without
    creating a task or calling a library algorithm. *)
Theorem short_sequences_untouched (b : backend) (sched : schedule) (v : list mypair) :
  is_Some (parallel_stable_sort b sched v)
  ∧ (length v ≤ 1 → parallel_stable_sort b sched v = Some (load v)).
Proof.
  split.
  - rewrite entry_unfold.
    destruct (parallel_stable_sort_at_vec b THRESHOLD sched v) as (m & -> & _). done.
  - intros Hlen. rewrite entry_unfold, variants_agree. unfold enough_fuel.
    rewrite stable_sort_thread_rec_unfold. rewrite decide_True; [done|lia].
Qed.

Lemma short_sequences_untouched_witness :
  length [(7, 0)%Z] ≤ 1
  ∧ parallel_stable_sort TBB right_first [(7, 0)%Z] = Some (load [(7, 0)%Z]).
Proof.
  assert (H : length [(7, 0)%Z] ≤ 1) by (simpl; lia).
  split; [exact H|].
  exact (proj2 (short_sequences_untouched TBB right_first [(7, 0)%Z]) H).
Defined.

(** C6. A sequence that is already in order (keys ascending, equal keys in
    ascending original-index order) comes out of every variant identical,
    element for element. *)
Theorem sorted_input_unchanged (b : backend) (sched : schedule) (v : list mypair) :
  Sorted ascending v →
  ∃ m, parallel_stable_sort b sched v = Some m ∧ vec m = v.
Proof.
  intros Hv. rewrite entry_unfold.
  destruct (parallel_stable_sort_at_vec b THRESHOLD sched v) as (m & Hrun & Hvec).
  exists m. split; [done|]. rewrite Hvec.
  by apply pair_sort_of_sorted, ascending_sorted.
Qed.

Lemma sorted_input_unchanged_witness :
  Sorted ascending [(1, 0); (1, 4); (2, 3); (9, 1)]%Z
  ∧ ∃ m, parallel_stable_sort Cilk left_first [(1, 0); (1, 4); (2, 3); (9, 1)]%Z = Some m
         ∧ vec m = [(1, 0); (1, 4); (2, 3); (9, 1)]%Z.
Proof.
  assert (H : Sorted ascending [(1, 0); (1, 4); (2, 3); (9, 1)]%Z).
  { repeat constructor; unfold ascending, key, original_index; simpl; lia. }
  split; [exact H|].
  exact (sorted_input_unchanged Cilk left_first _ H).
Defined.

(** C7. With the threshold taken as a parameter of the recursion, thresholds
    0, 3 and 10 leave the same vector for every input, variant and schedule;
    threshold 3 is the run of the two-argument overload. *)
Theorem threshold_invariance (b : backend) (sched : schedule) (v : list mypair) :
  ∃ m0 m3 m10,
    parallel_stable_sort_at 0 b sched v = Some m0
    ∧ parallel_stable_sort_at 3 b sched v = Some m3
    ∧ parallel_stable_sort_at 10 b sched v = Some m10
    ∧ parallel_stable_sort b sched v = Some m3
    ∧ vec m0 = vec m3 ∧ vec m3 = vec m10.
Proof.
  unfold parallel_stable_sort_at. rewrite entry_unfold.
  destruct (parallel_stable_sort_at_vec b 0 sched v) as (m0 & H0 & Hv0).
  destruct (parallel_stable_sort_at_vec b 3 sched v) as (m3 & H3 & Hv3).
  destruct (parallel_stable_sort_at_vec b 10 sched v) as (m10 & H10 & Hv10).
  exists m0, m3, m10. split_and!; try done; congruence.
Qed.

(** C3 (as amended). When [std::inplace_merge] is called on adjacent
    sub-ranges that are each in order, the range [[first, last)] ends up in
    order (by key, then original index) and holds the records of both
    sub-ranges; nothing outside it changes.  A record of the right sub-range
    stands before a record of the left one only if it is strictly smaller
    under [operator<]: records equal in key and original index keep their
    left-before-right order, and of two records with the same key the one
    with the smaller original index stands first, whichever side it came
    from. *)
Theorem inplace_merge_contract (m : machine) (first middle last : nat) :
  first ≤ middle → middle ≤ last → last ≤ length (vec m) →
  Sorted pair_le (range (vec m) first middle) →
  Sorted pair_le (range (vec m) middle last) →
  let m' := std_inplace_merge first middle last m in
  let out := merge_with_origins (range (vec m) first middle)
                                (range (vec m) middle last) in
  range (vec m') first last = out.*1
  ∧ Sorted pair_le (range (vec m') first last)
  ∧ range (vec m') first last ≡ₚ range (vec m) first last
  ∧ take first (vec m') = take first (vec m)
  ∧ drop last (vec m') = drop last (vec m)
  ∧ left_before_right (=) out
  ∧ (∀ i j x y, out !! i = Some (x, FromRight) → out !! j = Some (y, FromLeft) →
       i < j → pair_lt x y = true)
  ∧ (∀ i j x y, out !! i = Some x → out !! j = Some y → i < j →
       same_key x.1 y.1 → (original_index x.1 ≤ original_index y.1)%Z).
Proof.
  intros Hfm Hml Hlen Hl Hr m' out.
  destruct (vec_cut3 (vec m) first middle last Hfm Hml Hlen)
    as (p & a & b & q & Hv & Hp & Ha & Hb & Hra & Hrb & Hrab).
  assert (Hout : out = merge_with_origins a b) by (unfold out; by rewrite Hra, Hrb).
  clearbody out. subst out. set (out := merge_with_origins a b).
  rewrite <- Hra, <- Hrb in *. rewrite <- Hrab.
  assert (Hvec : vec m' = p ++ merge pair_lt a b ++ q).
  { unfold m', std_inplace_merge. simpl. rewrite <- Hra, <- Hrb. rewrite Hv at 1.
    by rewrite (splice_whole p a b q first middle last). }
  assert (Hrange : range (vec m') first last = merge pair_lt a b).
  { rewrite Hvec. apply range_app; [done|]. rewrite merge_length. lia. }
  assert (Hright : ∀ i j x y,
    out !! i = Some (x, FromRight) → out !! j = Some (y, FromLeft) →
    i < j → pair_lt x y = true).
  { intros i j x y Hi Hj Hij.
    assert (Hsl : StronglySorted pair_le a) by (by apply Sorted_StronglySorted; [apply _|]).
    pose proof (merge_with_origins_sorted a b Hsl) as Hs.
    by apply (strongly_sorted_lookup _ _ Hs i j _ _ Hij Hi Hj). }
  assert (Hsorted : Sorted pair_le (merge pair_lt a b)) by by apply pair_merge_sorted.
  split_and!.
  - rewrite Hrange. unfold out. by rewrite merge_with_origins_erase.
  - by rewrite Hrange.
  - by rewrite Hrange, merge_perm.
  - rewrite Hvec, Hv. by rewrite !take_app_length'.
  - rewrite Hvec, Hv.
    rewrite (app_assoc p (merge pair_lt a b) q), (app_assoc a b q), (app_assoc p (a ++ b) q).
    rewrite !drop_app_length'; [done|rewrite !length_app; lia|].
    rewrite !length_app, merge_length. lia.
  - intros i j x y Hi Hj <-.
    destruct (decide (i < j)) as [|Hge]; [done|]. exfalso.
    destruct (decide (i = j)) as [->|Hne]; [congruence|].
    assert (Hlt : pair_lt x x = true) by (apply (Hright j i); [done..|lia]).
    apply pair_lt_spec in Hlt. lia.
  - done.
  - intros i j x y Hi Hj Hij Hkey.
    assert (Hs : StronglySorted pair_le out.*1).
    { unfold out. rewrite merge_with_origins_erase.
      by apply Sorted_StronglySorted; [apply _|]. }
    assert (Hle : pair_le x.1 y.1).
    { apply (strongly_sorted_lookup _ _ Hs i j); [done|..];
        rewrite list_lookup_fmap; [by rewrite Hi|by rewrite Hj]. }
    apply pair_le_spec in Hle. unfold same_key in Hkey. lia.
Qed.

Lemma inplace_merge_contract_witness :
  let m := load [(9, 9); (2, 0); (5, 1); (5, 1); (7, 2)]%Z in
  (1 ≤ 3 ∧ 3 ≤ 5 ∧ 5 ≤ length (vec m))
  ∧ Sorted pair_le (range (vec m) 1 3)
  ∧ Sorted pair_le (range (vec m) 3 5)
  ∧ range (vec (std_inplace_merge 1 3 5 m)) 1 5
    = (merge_with_origins (range (vec m) 1 3) (range (vec m) 3 5)).*1
  ∧ Sorted pair_le (range (vec (std_inplace_merge 1 3 5 m)) 1 5)
  ∧ left_before_right (=) (merge_with_origins (range (vec m) 1 3) (range (vec m) 3 5)).
Proof.
  intros m.
  assert (H1 : 1 ≤ 3) by lia. assert (H2 : 3 ≤ 5) by lia.
  assert (H3 : 5 ≤ length (vec m)) by (simpl; lia).
  assert (Hl : Sorted pair_le (range (vec m) 1 3)) by (vm_compute; repeat constructor).
  assert (Hr : Sorted pair_le (range (vec m) 3 5)) by (vm_compute; repeat constructor).
  split; [done|]. split; [exact Hl|]. split; [exact Hr|].
  destruct (inplace_merge_contract m 1 3 5 H1 H2 H3 Hl Hr)
    as (Ha & Hb & _ & _ & _ & Hc & _).
  split; [exact Ha|]. split; [exact Hb|exact Hc].
Defined.

(** C3 with "equal keys" read as equal first components does not hold: the
    comparison looks at the original index too, so a right record with the
    same key and a smaller index is moved in front of a left one. *)
Lemma inplace_merge_equal_keys_counterexample :
  let m := load [(5, 2); (5, 0)]%Z in
  let out := merge_with_origins (range (vec m) 0 1) (range (vec m) 1 2) in
  Sorted pair_le (range (vec m) 0 1)
  ∧ Sorted pair_le (range (vec m) 1 2)
  ∧ vec (std_inplace_merge 0 1 2 m) = [(5, 0); (5, 2)]%Z
  ∧ ¬ left_before_right same_key out.
Proof.
  split_and!.
  - vm_compute. repeat constructor.
  - vm_compute. repeat constructor.
  - reflexivity.
  - intros H. specialize (H 1 0 (5, 2)%Z (5, 0)%Z eq_refl eq_refl eq_refl). lia.
Qed.

(** C4. [THRESHOLD] is 3.  Every call on a range of two or more elements
    returns, and it takes the parallel split exactly when the incremented
    depth is at most [THRESHOLD]: then a task pair is created, the two
    halves [[first, middle)] and [[middle, last)] are sorted by two calls
    at the incremented depth, one after the other in the order the tasks
    run, and [std::inplace_merge] is called on the outcome; otherwise the
    call is one [std::stable_sort] on its range and nothing else, so
    nothing below it runs as a task.  A run of a two-argument overload
    creates task pairs at depths 1 to 3 only and hands at most 2^3 = 8
    segments to [std::stable_sort]. *)
Theorem depth_gate (b : backend) (sched : schedule) :
  THRESHOLD = 3%Z
  ∧ (∀ fuel first last reci m,
       ¬ last - first ≤ 1 → last - first < fuel →
       let reci' := int32_incr reci in
       let middle := first + (last - first) / 2 in
       let spawned := emit (EvSpawn first middle last reci') m in
       let lower := parallel_stable_sort_rec b THRESHOLD (enough_fuel first middle)
                      sched first middle reci' in
       let upper := parallel_stable_sort_rec b THRESHOLD (enough_fuel middle last)
                      sched middle last reci' in
       let call := parallel_stable_sort_rec b THRESHOLD fuel sched first last reci m in
       ((reci' ≤ THRESHOLD)%Z →
          ∃ m1 m2,
            (if sched first last
             then lower spawned = Some m1 ∧ upper m1 = Some m2
             else upper spawned = Some m1 ∧ lower m1 = Some m2)
            ∧ call = Some (std_inplace_merge first middle last m2)
            ∧ ∃ evs, trace (std_inplace_merge first middle last m2)
                     = trace m ++ EvSpawn first middle last reci' :: evs
                         ++ [EvInplaceMerge first middle last])
       ∧ (¬ (reci' ≤ THRESHOLD)%Z →
          call = Some (std_stable_sort first last m)
          ∧ trace (std_stable_sort first last m)
            = trace m ++ [EvStableSort first last]))
  ∧ (∀ v, ∃ m, parallel_stable_sort b sched v = Some m
          ∧ Forall (spawn_depth 0 THRESHOLD) (trace m)
          ∧ leaf_segments (trace m) ≤ 2 ^ Z.to_nat THRESHOLD
          ∧ 2 ^ Z.to_nat THRESHOLD = 8).
Proof.
  split_and!; [done| |].
  - intros fuel first last reci m Hlong Hfuel reci' middle spawned lower upper call.
    unfold lower, upper, call. rewrite variants_agree.
    destruct fuel as [|fuel]; [lia|].
    pose proof (midpoint_inside first last Hlong) as Hmid. fold middle in Hmid.
    rewrite stable_sort_thread_rec_unfold. fold reci' middle.
    rewrite (decide_False (P := last - first ≤ 1)) by done.
    split.
    + intros Hgate. rewrite (decide_True (P := (reci' ≤ THRESHOLD)%Z)) by done.
      unfold spawn_pair. fold spawned. destruct (sched first last).
      * destruct (stable_sort_thread_rec_total THRESHOLD (enough_fuel first middle)
                    sched first middle reci' spawned) as [m1 H1];
          [unfold enough_fuel; lia|].
        destruct (stable_sort_thread_rec_total THRESHOLD (enough_fuel middle last)
                    sched middle last reci' m1) as [m2 H2];
          [unfold enough_fuel; lia|].
        exists m1, m2. split; [done|].
        assert (Hlo : enough_fuel first middle ≤ fuel) by (unfold enough_fuel; lia).
        assert (Hup : enough_fuel middle last ≤ fuel) by (unfold enough_fuel; lia).
        rewrite (stable_sort_thread_rec_fuel _ _ fuel _ _ _ _ _ _ Hlo H1).
        cbn [mbind option_bind].
        rewrite (stable_sort_thread_rec_fuel _ _ fuel _ _ _ _ _ _ Hup H2).
        split; [done|].
        apply stable_sort_thread_rec_trace in H1 as (evs1 & Ht1 & _).
        apply stable_sort_thread_rec_trace in H2 as (evs2 & Ht2 & _).
        exists (evs1 ++ evs2). simpl. rewrite Ht2, Ht1. simpl.
        by rewrite <- !app_assoc.
      * destruct (stable_sort_thread_rec_total THRESHOLD (enough_fuel middle last)
                    sched middle last reci' spawned) as [m1 H1];
          [unfold enough_fuel; lia|].
        destruct (stable_sort_thread_rec_total THRESHOLD (enough_fuel first middle)
                    sched first middle reci' m1) as [m2 H2];
          [unfold enough_fuel; lia|].
        exists m1, m2. split; [done|].
        assert (Hlo : enough_fuel first middle ≤ fuel) by (unfold enough_fuel; lia).
        assert (Hup : enough_fuel middle last ≤ fuel) by (unfold enough_fuel; lia).
        rewrite (stable_sort_thread_rec_fuel _ _ fuel _ _ _ _ _ _ Hup H1).
        cbn [mbind option_bind].
        rewrite (stable_sort_thread_rec_fuel _ _ fuel _ _ _ _ _ _ Hlo H2).
        split; [done|].
        apply stable_sort_thread_rec_trace in H1 as (evs1 & Ht1 & _).
        apply stable_sort_thread_rec_trace in H2 as (evs2 & Ht2 & _).
        exists (evs1 ++ evs2). simpl. rewrite Ht2, Ht1. simpl.
        by rewrite <- !app_assoc.
    + intros Hgate. by rewrite (decide_False (P := (reci' ≤ THRESHOLD)%Z)) by done.
  - intros v. rewrite entry_unfold.
    destruct (parallel_stable_sort_at_vec b THRESHOLD sched v) as (m & Hrun & _).
    exists m. split; [done|]. rewrite variants_agree in Hrun.
    apply stable_sort_thread_rec_trace in Hrun as (evs & Ht & _ & _ & Hd).
    simpl in Ht. subst evs. destruct Hd as [Hleaf Hdepth].
    { unfold depth_in_range, THRESHOLD. lia. }
    split_and!; [done| |done]. by rewrite Z.sub_0_r in Hleaf.
Qed.

Lemma depth_gate_witness :
  let m := load [(2, 0); (1, 1); (0, 2); (1, 3)]%Z in
  let spawned := emit (EvSpawn 0 2 4 1) m in
  ¬ 4 - 0 ≤ 1 ∧ 4 - 0 < 5 ∧ (int32_incr 0 ≤ THRESHOLD)%Z
  ∧ ∃ m1 m2,
      (stable_sort_thread_rec THRESHOLD (enough_fuel 0 2) left_first 0 2 1 spawned = Some m1
       ∧ stable_sort_thread_rec THRESHOLD (enough_fuel 2 4) left_first 2 4 1 m1 = Some m2)
      ∧ stable_sort_thread_rec THRESHOLD 5 left_first 0 4 0 m
        = Some (std_inplace_merge 0 2 4 m2)
      ∧ ∃ evs, trace (std_inplace_merge 0 2 4 m2)
               = trace m ++ EvSpawn 0 2 4 1 :: evs ++ [EvInplaceMerge 0 2 4].
Proof.
  intros m spawned.
  assert (Hlong : ¬ 4 - 0 ≤ 1) by (simpl; lia).
  assert (Hfuel : 4 - 0 < 5) by (simpl; lia).
  assert (Hgate : (int32_incr 0 ≤ THRESHOLD)%Z) by (vm_compute; discriminate).
  split; [exact Hlong|]. split; [exact Hfuel|]. split; [exact Hgate|].
  exact (proj1 (proj1 (proj2 (depth_gate Thread left_first)) 5 0 4 0%Z m Hlong Hfuel)
           Hgate).
Defined.

(** C8. For every range and each variant (at any threshold and depth), the
    call returns; the range then holds a permutation of what it held, the
    vector has the same length, what lies before [first] and from [last] on
    is as it was, and every task pair and library call made was given
    iterators inside the range. *)
Theorem permutation_within_range (b : backend) (threshold : Z) (sched : schedule)
    (first last : nat) (reci : Z) (m : machine) :
  first ≤ last ≤ length (vec m) →
  ∃ m' evs,
    parallel_stable_sort_rec b threshold (enough_fuel first last) sched
      first last reci m = Some m'
    ∧ range (vec m') first last ≡ₚ range (vec m) first last
    ∧ length (vec m') = length (vec m)
    ∧ take first (vec m') = take first (vec m)
    ∧ drop last (vec m') = drop last (vec m)
    ∧ trace m' = trace m ++ evs
    ∧ Forall (within first last) evs.
Proof.
  intros Hb.
  destruct (parallel_stable_sort_rec_vec b threshold (enough_fuel first last)
              sched first last reci m Hb) as (m' & Hrun & Hvec);
    [unfold enough_fuel; lia|].
  pose proof Hrun as Hrun'. rewrite variants_agree in Hrun'.
  apply stable_sort_thread_rec_trace in Hrun' as (evs & Ht & Hw & _).
  exists m', evs. split; [done|].
  destruct (vec_cut (vec m) first last Hb) as (p & x & q & Hv & Hp & Hx & Hpt & Hxr & Hqd).
  rewrite <- Hxr in *. rewrite Hv in Hvec at 1.
  rewrite splice_app in Hvec by (done || lia).
  assert (Hlen : length (stable_sort_list pair_lt x) = last - first)
    by by rewrite stable_sort_list_length.
  split_and!; try done.
  - rewrite Hvec, range_app by done. apply stable_sort_list_perm.
  - rewrite Hvec, Hv, !length_app. lia.
  - rewrite Hvec, Hv. by rewrite !take_app_length'.
  - rewrite Hvec, Hv.
    rewrite (app_assoc p _ q), (app_assoc p x q).
    rewrite !drop_app_length'; [done|rewrite length_app; lia..].
Qed.

Lemma permutation_within_range_witness :
  let m := load [(4, 0); (3, 1); (2, 2); (1, 3); (0, 4)]%Z in
  1 ≤ 4 ≤ length (vec m)
  ∧ ∃ m' evs,
      stable_sort_openmp_rec 0 (enough_fuel 1 4) right_first 1 4 0 m = Some m'
      ∧ range (vec m') 1 4 ≡ₚ range (vec m) 1 4
      ∧ length (vec m') = length (vec m)
      ∧ take 1 (vec m') = take 1 (vec m)
      ∧ drop 4 (vec m') = drop 4 (vec m)
      ∧ trace m' = trace m ++ evs
      ∧ Forall (within 1 4) evs.
Proof.
  intros m. assert (H : 1 ≤ 4 ≤ length (vec m)) by (simpl; lia).
  split; [exact H|].
  exact (permutation_within_range OpenMP 0 right_first 1 4 0 m H).
Defined.

(** C9. Every call of every variant runs to completion: with fuel above the
    length of the range it returns a result, and more fuel returns the same
    one; a range of length at most 1 returns at once with the vector as it
    was, and the midpoint of a longer range leaves both halves non-empty and
    strictly shorter than the range. *)
Theorem sort_terminates (b : backend) (threshold : Z) (sched : schedule)
    (fuel first last : nat) (reci : Z) (m : machine) :
  last - first < fuel →
  is_Some (parallel_stable_sort_rec b threshold fuel sched first last reci m)
  ∧ (∀ fuel', fuel ≤ fuel' →
       parallel_stable_sort_rec b threshold fuel' sched first last reci m
       = parallel_stable_sort_rec b threshold fuel sched first last reci m)
  ∧ (last - first ≤ 1 →
     parallel_stable_sort_rec b threshold 1 sched first last reci m = Some m)
  ∧ (¬ last - first ≤ 1 →
     let middle := first + (last - first) / 2 in
     0 < middle - first < last - first ∧ 0 < last - middle < last - first)
  ∧ (∀ v, is_Some (parallel_stable_sort b sched v)).
Proof.
  intros Hfuel. rewrite variants_agree.
  pose proof (stable_sort_thread_rec_total threshold fuel sched first last reci m Hfuel)
    as [m' Hrun].
  split_and!.
  - by rewrite Hrun.
  - intros fuel' Hle. rewrite Hrun. by eapply stable_sort_thread_rec_fuel.
  - intros Hshort. rewrite stable_sort_thread_rec_unfold. by rewrite decide_True.
  - intros Hlong middle. pose proof (midpoint_inside first last Hlong). lia.
  - intros v. rewrite entry_unfold, variants_agree.
    apply stable_sort_thread_rec_total. unfold enough_fuel. lia.
Qed.

Lemma sort_terminates_witness :
  5 - 0 < 6
  ∧ is_Some (stable_sort_cilk_rec 10 6 left_first 0 5 0
               (load [(4, 0); (3, 1); (2, 2); (1, 3); (0, 4)]%Z)).
Proof.
  assert (H : 5 - 0 < 6) by lia. split; [exact H|].
  exact (proj1 (sort_terminates Cilk 10 left_first 6 0 5 0
                  (load [(4, 0); (3, 1); (2, 2); (1, 3); (0, 4)]%Z) H)).
Defined.

(** C10. [operator<] on records is the lexicographic order on (key,
    original index), so it decides between records with the same key by
    their original index.  For an input whose original indices are pairwise
    distinct there is one strictly ascending arrangement of the records; it
    is the only ascending arrangement of the input, and every variant
    under every schedule leaves exactly it. *)
Theorem lexicographic_order_fixes_output (v : list mypair) :
  NoDup (original_index <$> v) →
  (∀ x y, pair_lt x y = true ↔
     (key x < key y ∨ (key x = key y ∧ original_index x < original_index y))%Z)
  ∧ ∃ out,
      out ≡ₚ v
      ∧ StronglySorted (λ x y, pair_lt x y = true) out
      ∧ (∀ l, l ≡ₚ v → Sorted pair_le l → l = out)
      ∧ (∀ b sched, vec <$> parallel_stable_sort b sched v = Some out).
Proof.
  intros Hnd. split; [apply pair_lt_spec|].
  exists (stable_sort_list pair_lt v). split_and!.
  - apply stable_sort_list_perm.
  - apply strongly_sorted_strict; [apply pair_sort_strongly_sorted|].
    rewrite stable_sort_list_perm. by apply NoDup_fmap_1 in Hnd.
  - intros l Hperm Hl. apply pair_sorted_unique; [done|apply pair_sort_sorted|].
    by rewrite Hperm, stable_sort_list_perm.
  - intros b sched. rewrite entry_unfold.
    destruct (parallel_stable_sort_at_vec b THRESHOLD sched v) as (m & -> & Hvec).
    simpl. by rewrite Hvec.
Qed.

Lemma lexicographic_order_fixes_output_witness :
  NoDup (original_index <$> [(5, 0); (3, 1); (5, 2); (1, 3)]%Z)
  ∧ ∃ out, out ≡ₚ [(5, 0); (3, 1); (5, 2); (1, 3)]%Z
      ∧ ∀ b sched,
          vec <$> parallel_stable_sort b sched [(5, 0); (3, 1); (5, 2); (1, 3)]%Z
          = Some out.
Proof.
  assert (H : NoDup (original_index <$> [(5, 0); (3, 1); (5, 2); (1, 3)]%Z)).
  { apply (bool_decide_unpack _). vm_compute. exact I. }
  split; [exact H|].
  destruct (lexicographic_order_fixes_output _ H) as (_ & out & Hperm & _ & _ & Hall).
  exists out. split; [exact Hperm|exact Hall].
Defined.

(** ** The scenarios of the specification *)

Example scenario_A (b : backend) :
  vec <$> parallel_stable_sort b left_first [(5, 0); (3, 1); (5, 2); (1, 3)]%Z
  = Some [(1, 3); (3, 1); (5, 0); (5, 2)]%Z.
Proof. by destruct b. Qed.

Example scenario_A_trace :
  trace <$> stable_sort_tbb right_first [(5, 0); (3, 1); (5, 2); (1, 3)]%Z
  = Some [EvSpawn 0 2 4 1; EvSpawn 2 3 4 2; EvInplaceMerge 2 3 4;
          EvSpawn 0 1 2 2; EvInplaceMerge 0 1 2; EvInplaceMerge 0 2 4].
Proof. reflexivity. Qed.

Example scenario_B (b : backend) (sched : schedule) :
  parallel_stable_sort b sched [] = Some (load []).
Proof. by destruct b. Qed.

(** Sixteen records: four levels of halving, the last one past the gate. *)
Example eight_leaves :
  leaf_segments <$> (trace <$> stable_sort_thread left_first
    ((λ k, (k, k)) <$> [9; 8; 7; 6; 5; 4; 3; 2; 1; 0; 9; 8; 7; 6; 5; 4])%Z)
  = Some 8.
Proof. reflexivity. Qed.

(** ** The comparison of vectors *)

Lemma forallb_lookup_eq (v1 v2 : list mypair) :
  length v1 = length v2 →
  forallb (λ i, bool_decide (v1 !! i = v2 !! i)) (seq 0 (length v1))
  = bool_decide (v1 = v2).
Proof.
  intros Hlen. destruct (decide (v1 = v2)) as [->|Hne].
  - rewrite bool_decide_eq_true_2 by done. apply forallb_forall.
    intros i _. by apply bool_decide_eq_true.
  - rewrite bool_decide_eq_false_2 by done. apply not_true_iff_false.
    intros Hall. apply Hne, list_eq. intros i.
    rewrite forallb_forall in Hall.
    destruct (decide (i < length v1)) as [Hi|Hi].
    + eapply bool_decide_eq_true_1, Hall, in_seq. lia.
    + rewrite !lookup_ge_None_2; [done|lia..].
Qed.

(** X1. [vec_check] stops at its assertion when the sizes differ, and for
    vectors of one size returns [true] exactly when they are equal. *)
Theorem vec_check_spec (v1 v2 : list mypair) :
  vec_check v1 v2 =
  if decide (length v1 = length v2) then Some (bool_decide (v1 = v2)) else None.
Proof.
  unfold vec_check. destruct (decide (length v1 = length v2)); [|done].
  by rewrite forallb_lookup_eq.
Qed.

(** X2. The [DEBUG] block of [elapsed_time] never trips the assertion of
    [vec_check], and it accepts a vector exactly when the vector is in
    order: it compares the vector with a sorted copy of itself, so it does
    not look at what the vector held before the timed call. *)
Theorem debug_check_accepts_sorted (v : list mypair) :
  (∃ ok, elapsed_time_debug_check v = Some ok)
  ∧ (elapsed_time_debug_check v = Some true ↔ Sorted pair_le v).
Proof.
  unfold elapsed_time_debug_check, vec_check. rewrite sequential_stable_sort_eq.
  rewrite decide_True by by rewrite stable_sort_list_length.
  rewrite forallb_lookup_eq by by rewrite stable_sort_list_length.
  split; [by eexists|]. split.
  - intros [= Heq%bool_decide_eq_true]. rewrite Heq. apply pair_sort_sorted.
  - intros Hs. f_equal. apply bool_decide_eq_true. by rewrite pair_sort_of_sorted.
Qed.

(** ** Calls on a sub-range *)

(** X3. Called on any range of the vector, at any depth and threshold, each
    variant leaves the vector exactly as one call of [std::stable_sort] on
    that range leaves it; the range ends up in order. *)
Theorem recursive_call_refines_std_stable_sort (b : backend) (threshold : Z)
    (sched : schedule) (first last : nat) (reci : Z) (m : machine) :
  first ≤ last ≤ length (vec m) →
  ∃ m', parallel_stable_sort_rec b threshold (enough_fuel first last) sched
          first last reci m = Some m'
        ∧ vec m' = vec (std_stable_sort first last m)
        ∧ Sorted pair_le (range (vec m') first last).
Proof.
  intros Hb.
  destruct (parallel_stable_sort_rec_vec b threshold (enough_fuel first last)
              sched first last reci m Hb) as (m' & Hrun & Hvec);
    [unfold enough_fuel; lia|].
  exists m'. split; [done|]. split; [done|].
  destruct (vec_cut (vec m) first last Hb) as (p & x & q & Hv & Hp & Hx & _ & Hxr & _).
  rewrite Hvec, <- Hxr. rewrite Hv at 1. rewrite splice_app by (done || lia).
  rewrite range_app; [apply pair_sort_sorted|done|].
  by rewrite stable_sort_list_length.
Qed.

Lemma recursive_call_refines_std_stable_sort_witness :
  let m := load [(0, 0); (9, 1); (3, 2); (3, 3); (1, 4); (0, 5)]%Z in
  1 ≤ 5 ≤ length (vec m)
  ∧ ∃ m', stable_sort_tbb_rec 1 (enough_fuel 1 5) left_first 1 5 7 m = Some m'
          ∧ vec m' = vec (std_stable_sort 1 5 m)
          ∧ Sorted pair_le (range (vec m') 1 5).
Proof.
  intros m. assert (H : 1 ≤ 5 ≤ length (vec m)) by (simpl; lia).
  split; [exact H|].
  exact (recursive_call_refines_std_stable_sort TBB 1 left_first 1 5 7 m H).
Defined.

(** ** The events of a run *)

Lemma trace_is_call_events threshold fuel :
  ∀ sched first last reci m m',
    stable_sort_thread_rec threshold fuel sched first last reci m = Some m' →
    trace m' = trace m ++ call_events threshold fuel sched first last reci.
Proof.
  induction fuel as [|fuel IH]; intros sched first last reci m m' Hrun; [done|].
  rewrite stable_sort_thread_rec_unfold in Hrun. simpl call_events.
  destruct (decide (last - first ≤ 1)).
  { injection Hrun as <-. by rewrite app_nil_r. }
  destruct (decide (int32_incr reci ≤ threshold)%Z); [|by injection Hrun as <-].
  unfold spawn_pair in Hrun. destruct (sched first last).
  - destruct (stable_sort_thread_rec threshold fuel sched first _ _ _)
      as [m1|] eqn:H1; [|done]. simpl in Hrun.
    destruct (stable_sort_thread_rec threshold fuel sched _ last _ _)
      as [m2|] eqn:H2; [|done]. simpl in Hrun. injection Hrun as <-.
    apply IH in H1. apply IH in H2. simpl. rewrite H2, H1. simpl.
    by rewrite <- !app_assoc.
  - destruct (stable_sort_thread_rec threshold fuel sched _ last _ _)
      as [m1|] eqn:H1; [|done]. simpl in Hrun.
    destruct (stable_sort_thread_rec threshold fuel sched first _ _ _)
      as [m2|] eqn:H2; [|done]. simpl in Hrun. injection Hrun as <-.
    apply IH in H1. apply IH in H2. simpl. rewrite H2, H1. simpl.
    by rewrite <- !app_assoc.
Qed.

(** The trace of a two-argument overload. *)
Lemma entry_trace b sched v :
  ∃ m, parallel_stable_sort b sched v = Some m
       ∧ vec m = stable_sort_list pair_lt v
       ∧ trace m = call_events THRESHOLD (enough_fuel 0 (length v)) sched
                     0 (length v) 0.
Proof.
  rewrite entry_unfold.
  destruct (parallel_stable_sort_at_vec b THRESHOLD sched v) as (m & Hrun & Hvec).
  exists m. split_and!; [done..|]. rewrite variants_agree in Hrun.
  by apply trace_is_call_events in Hrun.
Qed.

Lemma spawns_app (t1 t2 : list event) : spawns (t1 ++ t2) = spawns t1 + spawns t2.
Proof. induction t1 as [|e t1 IH]; [done|]. destruct e; simpl; rewrite IH; lia. Qed.

Lemma merges_app (t1 t2 : list event) : merges (t1 ++ t2) = merges t1 + merges t2.
Proof. induction t1 as [|e t1 IH]; [done|]. destruct e; simpl; rewrite IH; lia. Qed.

Lemma call_events_unfold threshold fuel sched first last reci :
  call_events threshold (S fuel) sched first last reci =
  if decide (last - first ≤ 1) then []
  else if decide (int32_incr reci ≤ threshold)%Z then
    EvSpawn first (first + (last - first) / 2) last (int32_incr reci)
      :: (if sched first last
          then call_events threshold fuel sched first (first + (last - first) / 2)
                 (int32_incr reci)
               ++ call_events threshold fuel sched (first + (last - first) / 2) last
                    (int32_incr reci)
          else call_events threshold fuel sched (first + (last - first) / 2) last
                 (int32_incr reci)
               ++ call_events threshold fuel sched first (first + (last - first) / 2)
                    (int32_incr reci))
      ++ [EvInplaceMerge first (first + (last - first) / 2) last]
  else [EvStableSort first last].
Proof. done. Qed.

(** The three counts of a fork: one more task pair and one more merge than
    the two halves together, and their sequential sorts. *)
Lemma fork_counts (sched_bit : bool) (e1 e2 : event) (lower upper : list event) :
  spawns [e1] = 1 → merges [e1] = 0 → leaf_segments [e1] = 0 →
  spawns [e2] = 0 → merges [e2] = 1 → leaf_segments [e2] = 0 →
  let evs := e1 :: (if sched_bit then lower ++ upper else upper ++ lower) ++ [e2] in
  spawns evs = 1 + spawns lower + spawns upper
  ∧ merges evs = 1 + merges lower + merges upper
  ∧ leaf_segments evs = leaf_segments lower + leaf_segments upper.
Proof.
  intros Hs1 Hm1 Hl1 Hs2 Hm2 Hl2 evs. unfold evs.
  change (e1 :: ?t) with ([e1] ++ t).
  rewrite !spawns_app, !merges_app, !leaf_segments_app, Hs1, Hm1, Hl1, Hs2, Hm2, Hl2.
  destruct sched_bit; rewrite !spawns_app, !merges_app, !leaf_segments_app; lia.
Qed.

Lemma half_spec (len : nat) : ∃ r, len = 2 * (len / 2) + r ∧ r < 2.
Proof.
  exists (len `mod` 2). split; [apply Nat.div_mod_eq|].
  apply Nat.mod_upper_bound. lia.
Qed.

Lemma call_events_counts threshold fuel :
  ∀ sched first last reci,
    last - first < fuel →
    let evs := call_events threshold fuel sched first last reci in
    let room := 2 ^ Z.to_nat (threshold - reci) in
    spawns evs = merges evs
    ∧ spawns evs + 1 ≤ max 1 (last - first)
    ∧ (depth_in_range threshold reci →
       spawns evs + 1 ≤ room
       ∧ (last - first ≤ room →
          leaf_segments evs = 0 ∧ spawns evs + 1 = max 1 (last - first))
       ∧ (2 * room ≤ last - first →
          leaf_segments evs = room ∧ spawns evs + 1 = room)).
Proof.
  induction fuel as [|fuel IH]; intros sched first last reci Hfuel; [lia|].
  cbv zeta. rewrite call_events_unfold.
  pose proof (pow2_pos (Z.to_nat (threshold - reci))) as Hroom.
  destruct (decide (last - first ≤ 1)) as [Hshort|Hlong].
  { simpl. split_and!; [done|lia|]. intros _. split_and!; lia. }
  destruct (decide (int32_incr reci ≤ threshold)%Z) as [Hgate|Hgate].
  2:{ simpl. split_and!; [done|lia|]. intros [Hr Ht].
      rewrite int32_incr_small in Hgate by lia.
      replace (Z.to_nat (threshold - reci)) with 0 in * by lia. simpl in *.
      split_and!; lia. }
  pose proof (midpoint_inside first last Hlong) as Hmid.
  destruct (half_spec (last - first)) as (r & Hhalf & Hr).
  set (middle := first + (last - first) / 2) in *.
  destruct (IH sched first middle (int32_incr reci)) as (Hs1 & Hn1 & Hd1); [lia|].
  destruct (IH sched middle last (int32_incr reci)) as (Hs2 & Hn2 & Hd2); [lia|].
  set (lower := call_events threshold fuel sched first middle (int32_incr reci)) in *.
  set (upper := call_events threshold fuel sched middle last (int32_incr reci)) in *.
  destruct (fork_counts (sched first last)
              (EvSpawn first middle last (int32_incr reci))
              (EvInplaceMerge first middle last) lower upper)
    as (Hs & Hm & Hl); [done..|].
  rewrite Hs, Hm, Hl. split_and!; [lia|lia|].
  intros [Hrange Ht].
  assert (Hi : int32_incr reci = (reci + 1)%Z) by (apply int32_incr_small; lia).
  assert (Hin : depth_in_range threshold (int32_incr reci))
    by (unfold depth_in_range; lia).
  destruct (Hd1 Hin) as (Hb1 & Hsmall1 & Hbig1).
  destruct (Hd2 Hin) as (Hb2 & Hsmall2 & Hbig2).
  assert (Hpow : 2 ^ Z.to_nat (threshold - reci)
                 = 2 * 2 ^ Z.to_nat (threshold - int32_incr reci)).
  { rewrite Hi. replace (Z.to_nat (threshold - reci))
      with (S (Z.to_nat (threshold - (reci + 1)))) by lia.
    by rewrite Nat.pow_succ_r'. }
  rewrite Hpow in *.
  set (room' := 2 ^ Z.to_nat (threshold - int32_incr reci)) in *.
  split_and!.
  - lia.
  - intros Hsmall. destruct Hsmall1 as [-> ?]; [lia|].
    destruct Hsmall2 as [-> ?]; lia.
  - intros Hbig. destruct Hbig1 as [-> ?]; [lia|].
    destruct Hbig2 as [-> ?]; lia.
Qed.

(** X4. In a run of a two-argument overload every task pair created is
    matched by one call of [std::inplace_merge]; at most 7 pairs are created
    (at most 14 threads in [stable_sort_thread]), and fewer than the vector
    has elements. *)
Theorem task_pairs_bounded (b : backend) (sched : schedule) (v : list mypair) :
  ∃ m, parallel_stable_sort b sched v = Some m
       ∧ spawns (trace m) = merges (trace m)
       ∧ spawns (trace m) ≤ 7
       ∧ spawns (trace m) + 1 ≤ max 1 (length v).
Proof.
  destruct (entry_trace b sched v) as (m & Hrun & _ & Ht).
  exists m. split; [done|]. rewrite Ht.
  destruct (call_events_counts THRESHOLD (enough_fuel 0 (length v)) sched
              0 (length v) 0) as (Hsm & Hlen & Hd); [unfold enough_fuel; lia|].
  destruct Hd as (Hroom & _); [unfold depth_in_range, THRESHOLD; lia|].
  change (2 ^ Z.to_nat (THRESHOLD - 0)) with 8 in Hroom.
  rewrite Nat.sub_0_r in Hlen. split_and!; [done|lia|done].
Qed.

(** X5. A vector of at most 8 elements is sorted by splitting and merging
    alone: [std::stable_sort] is never called, and a vector of [n ≥ 1]
    elements takes exactly [n - 1] task pairs. *)
Theorem short_vectors_merge_only (b : backend) (sched : schedule) (v : list mypair) :
  length v ≤ 8 →
  ∃ m, parallel_stable_sort b sched v = Some m
       ∧ leaf_segments (trace m) = 0
       ∧ spawns (trace m) + 1 = max 1 (length v).
Proof.
  intros Hlen. destruct (entry_trace b sched v) as (m & Hrun & _ & Ht).
  exists m. split; [done|]. rewrite Ht.
  destruct (call_events_counts THRESHOLD (enough_fuel 0 (length v)) sched
              0 (length v) 0) as (_ & _ & Hd); [unfold enough_fuel; lia|].
  destruct Hd as (_ & Hsmall & _); [unfold depth_in_range, THRESHOLD; lia|].
  change (2 ^ Z.to_nat (THRESHOLD - 0)) with 8 in Hsmall.
  rewrite Nat.sub_0_r in Hsmall. by apply Hsmall.
Qed.

Lemma short_vectors_merge_only_witness :
  length [(3, 0); (1, 1); (2, 2); (1, 3); (0, 4)]%Z ≤ 8
  ∧ ∃ m, parallel_stable_sort Thread left_first
           [(3, 0); (1, 1); (2, 2); (1, 3); (0, 4)]%Z = Some m
         ∧ leaf_segments (trace m) = 0
         ∧ spawns (trace m) + 1 = max 1 (length [(3, 0); (1, 1); (2, 2); (1, 3); (0, 4)]%Z).
Proof.
  assert (H : length [(3, 0); (1, 1); (2, 2); (1, 3); (0, 4)]%Z ≤ 8) by (simpl; lia).
  split; [exact H|].
  exact (short_vectors_merge_only Thread left_first _ H).
Defined.

(** X6. A vector of 16 or more elements is always cut into exactly 8
    segments sorted by [std::stable_sort], with exactly 7 task pairs and 7
    merges, whatever its length. *)
Theorem long_vectors_eight_segments (b : backend) (sched : schedule) (v : list mypair) :
  16 ≤ length v →
  ∃ m, parallel_stable_sort b sched v = Some m
       ∧ leaf_segments (trace m) = 8
       ∧ spawns (trace m) = 7
       ∧ merges (trace m) = 7.
Proof.
  intros Hlen. destruct (entry_trace b sched v) as (m & Hrun & _ & Ht).
  exists m. split; [done|]. rewrite Ht.
  destruct (call_events_counts THRESHOLD (enough_fuel 0 (length v)) sched
              0 (length v) 0) as (Hsm & _ & Hd); [unfold enough_fuel; lia|].
  destruct Hd as (_ & _ & Hbig); [unfold depth_in_range, THRESHOLD; lia|].
  change (2 ^ Z.to_nat (THRESHOLD - 0)) with 8 in Hbig.
  rewrite Nat.sub_0_r in Hbig. destruct Hbig as [Hl Hs]; lia.
Qed.

Lemma long_vectors_eight_segments_witness :
  let v := ((λ k, (k, k)) <$> [9; 8; 7; 6; 5; 4; 3; 2; 1; 0; 9; 8; 7; 6; 5; 4; 3])%Z in
  16 ≤ length v
  ∧ ∃ m, parallel_stable_sort OpenMP right_first v = Some m
         ∧ leaf_segments (trace m) = 8
         ∧ spawns (trace m) = 7
         ∧ merges (trace m) = 7.
Proof.
  intros v. assert (H : 16 ≤ length v) by (simpl; lia).
  split; [exact H|].
  exact (long_vectors_eight_segments OpenMP right_first v H).
Defined.

Lemma call_events_perm threshold fuel :
  ∀ sched sched' first last reci,
    call_events threshold fuel sched first last reci
    ≡ₚ call_events threshold fuel sched' first last reci.
Proof.
  induction fuel as [|fuel IH]; intros sched sched' first last reci; [done|].
  rewrite !call_events_unfold.
  destruct (decide (last - first ≤ 1)); [done|].
  destruct (decide (int32_incr reci ≤ threshold)%Z); [|done].
  constructor. apply Permutation_app; [|done].
  set (middle := first + (last - first) / 2).
  pose proof (IH sched sched' first middle (int32_incr reci)) as Hlo.
  pose proof (IH sched sched' middle last (int32_incr reci)) as Hup.
  destruct (sched first last), (sched' first last).
  - by apply Permutation_app.
  - rewrite Permutation_app_comm. by apply Permutation_app.
  - rewrite Permutation_app_comm. by apply Permutation_app.
  - by apply Permutation_app.
Qed.

(** X7. Which task pairs are created and which library calls are made
    depends on the length of the vector only, not on the records in it; the
    order in which the tasks of a pair run changes the order of these events
    and nothing else. *)
Theorem events_depend_on_length_only (b : backend) (sched sched' : schedule)
    (v v' : list mypair) :
  length v = length v' →
  ∃ m m' m'',
    parallel_stable_sort b sched v = Some m
    ∧ parallel_stable_sort b sched v' = Some m'
    ∧ parallel_stable_sort b sched' v' = Some m''
    ∧ trace m = trace m'
    ∧ trace m' ≡ₚ trace m''.
Proof.
  intros Hlen.
  destruct (entry_trace b sched v) as (m & Hrun & _ & Ht).
  destruct (entry_trace b sched v') as (m' & Hrun' & _ & Ht').
  destruct (entry_trace b sched' v') as (m'' & Hrun'' & _ & Ht'').
  exists m, m', m''. split_and!; [done..| |].
  - by rewrite Ht, Ht', Hlen.
  - rewrite Ht', Ht''. apply call_events_perm.
Qed.

Lemma events_depend_on_length_only_witness :
  length [(2, 0); (1, 1); (0, 2)]%Z = length [(5, 5); (5, 5); (5, 5)]%Z
  ∧ ∃ m m' m'',
      parallel_stable_sort Cilk left_first [(2, 0); (1, 1); (0, 2)]%Z = Some m
      ∧ parallel_stable_sort Cilk left_first [(5, 5); (5, 5); (5, 5)]%Z = Some m'
      ∧ parallel_stable_sort Cilk right_first [(5, 5); (5, 5); (5, 5)]%Z = Some m''
      ∧ trace m = trace m'
      ∧ trace m' ≡ₚ trace m''.
Proof.
  assert (H : length [(2, 0); (1, 1); (0, 2)]%Z = length [(5, 5); (5, 5); (5, 5)]%Z)
    by reflexivity.
  split; [exact H|].
  exact (events_depend_on_length_only Cilk left_first right_first _ _ H).
Defined.

(** ** Records with the same key *)

Lemma run_timed_sorts (f : timed) (sched : schedule) (v : list mypair) :
  run_timed f sched v = Some (stable_sort_list pair_lt v).
Proof.
  destruct f as [|b]; simpl.
  - by rewrite sequential_stable_sort_eq.
  - rewrite entry_unfold.
    destruct (parallel_stable_sort_at_vec b THRESHOLD sched v) as (m & -> & Hvec).
    simpl. by rewrite Hvec.
Qed.

Lemma ties_strongly (v : list mypair) :
  ties_in_index_order v ↔
  StronglySorted (λ x y, key x = key y → (original_index x ≤ original_index y)%Z) v.
Proof.
  split.
  - induction v as [|x v IH]; intros Hties; constructor.
    + apply IH. intros i j a b Hi Hj Hij. apply (Hties (S i) (S j)); [done..|lia].
    + apply Forall_lookup. intros j y Hj. apply (Hties 0 (S j)); [done..|lia].
  - intros Hs i j x y Hi Hj Hij. by apply (strongly_sorted_lookup _ _ Hs i j).
Qed.

Lemma with_key_cons (k : Z) (x : mypair) (v : list mypair) :
  with_key k (x :: v) = if decide (key x = k) then x :: with_key k v else with_key k v.
Proof. unfold with_key. by rewrite filter_cons. Qed.

Lemma with_key_elem (k : Z) (y : mypair) (v : list mypair) :
  y ∈ with_key k v ↔ key y = k ∧ y ∈ v.
Proof. unfold with_key. by rewrite list_elem_of_filter. Qed.

Lemma with_key_ties_sorted (k : Z) (v : list mypair) :
  ties_in_index_order v → StronglySorted pair_le (with_key k v).
Proof.
  rewrite ties_strongly. induction 1 as [|x v Hv IH Hx]; [constructor|].
  rewrite with_key_cons. destruct (decide (key x = k)) as [Hk|]; [|done].
  constructor; [done|]. apply Forall_forall. intros y [Hy Hin]%with_key_elem.
  rewrite Forall_forall in Hx. apply pair_le_spec.
  specialize (Hx y Hin). lia.
Qed.

Lemma with_key_sorted (k : Z) (v : list mypair) :
  StronglySorted pair_le v → StronglySorted pair_le (with_key k v).
Proof.
  induction 1 as [|x v Hv IH Hx]; [constructor|].
  rewrite with_key_cons. destruct (decide (key x = k)); [|done].
  constructor; [done|]. apply Forall_forall. intros y [_ Hin]%with_key_elem.
  rewrite Forall_forall in Hx. by apply Hx.
Qed.

Lemma sort_keeps_ties (v : list mypair) (k : Z) :
  ties_in_index_order v →
  with_key k (stable_sort_list pair_lt v) = with_key k v.
Proof.
  intros Hties. apply (StronglySorted_unique pair_le).
  - apply with_key_sorted, pair_sort_strongly_sorted.
  - by apply with_key_ties_sorted.
  - unfold with_key. by rewrite stable_sort_list_perm.
Qed.

(** X8. When the records that share a key stand in ascending order of
    original index in the input, every timed function (the
    [std::stable_sort] baseline and the four variants) keeps, for every
    key, the records with that key in the order they had in the input. *)
Theorem equal_keys_keep_input_order (f : timed) (sched : schedule) (v : list mypair) :
  ties_in_index_order v →
  ∃ out, run_timed f sched v = Some out ∧ ∀ k, with_key k out = with_key k v.
Proof.
  intros Hties. exists (stable_sort_list pair_lt v).
  split; [apply run_timed_sorts|]. intros k. by apply sort_keeps_ties.
Qed.

Lemma equal_keys_keep_input_order_witness :
  ties_in_index_order [(5, 0); (3, 1); (5, 2); (1, 3); (5, 4)]%Z
  ∧ ∃ out, run_timed (Parallel TBB) right_first [(5, 0); (3, 1); (5, 2); (1, 3); (5, 4)]%Z
           = Some out
         ∧ ∀ k, with_key k out = with_key k [(5, 0); (3, 1); (5, 2); (1, 3); (5, 4)]%Z.
Proof.
  assert (H : ties_in_index_order [(5, 0); (3, 1); (5, 2); (1, 3); (5, 4)]%Z).
  { apply ties_strongly. repeat constructor; unfold key, original_index; simpl; lia. }
  split; [exact H|].
  exact (equal_keys_keep_input_order (Parallel TBB) right_first _ H).
Defined.

(** ** One round of the harness *)

Lemma fill_from_spec (draw : draws) :
  ∀ count j v c,
    length v = j + count →
    fill_from draw j count (v, c) =
    (take j v ++ ((λ i, (draw (c + i), Z.of_nat (j + i))) <$> seq 0 count),
     c + count).
Proof.
  induction count as [|count IH]; intros j v c Hlen.
  - simpl. rewrite take_ge by lia. by rewrite app_nil_r, Nat.add_0_r.
  - cbn [fill_from fst snd]. rewrite IH by (rewrite length_insert; lia).
    f_equal; [|lia].
    rewrite (take_S_r _ j (draw c, Z.of_nat j))
      by (apply list_lookup_insert_eq; unfold mypair in Hlen; lia).
    rewrite take_insert_ge by lia. rewrite <- app_assoc. f_equal.
    change (seq 0 (S count)) with (0 :: seq 1 count).
    rewrite <- (fmap_S_seq 0 count), fmap_cons, <- list_fmap_compose.
    change ([?x] ++ ?l) with (x :: l).
    f_equal; [by rewrite !Nat.add_0_r|].
    apply list_fmap_ext. intros _ i _. simpl. f_equal; [f_equal; lia|lia].
Qed.

Lemma generated_lookup (draw : draws) (c n j : nat) (r : mypair) :
  generated draw c n !! j = Some r ↔ r = (draw (c + j), Z.of_nat j) ∧ j < n.
Proof.
  unfold generated. rewrite list_lookup_fmap. split.
  - destruct (seq 0 n !! j) as [i|] eqn:Hi; [|done]. simpl. intros [= <-].
    apply lookup_seq in Hi as [-> ?]. done.
  - intros [-> Hj]. by rewrite lookup_seq_lt.
Qed.

Lemma generated_length (draw : draws) (c n : nat) : length (generated draw c n) = n.
Proof. unfold generated. by rewrite length_fmap, length_seq. Qed.

(** X9. The filling loop of [elapsed_time] overwrites the whole vector:
    whatever the previous round left, position [j] then holds the [j]-th
    new draw as key and [j] as original index, and exactly [n] draws have
    been made. *)
Theorem fill_overwrites_everything (draw : draws) (n c : nat) (v : list mypair) :
  length v = n →
  ∃ g, fill draw n (v, c) = (g, c + n)
       ∧ length g = n
       ∧ ∀ j, j < n → g !! j = Some (draw (c + j), Z.of_nat j).
Proof.
  intros Hlen. exists (generated draw c n). split_and!.
  - unfold fill. rewrite fill_from_spec by done. by rewrite take_0.
  - apply generated_length.
  - intros j Hj. by apply generated_lookup.
Qed.

Lemma fill_overwrites_everything_witness :
  length [(1, 2); (0, 0); (8, 1)]%Z = 3
  ∧ ∃ g, fill (λ c, Z.of_nat (c * c)) 3 ([(1, 2); (0, 0); (8, 1)]%Z, 4) = (g, 4 + 3)
         ∧ length g = 3
         ∧ ∀ j, j < 3 → g !! j = Some (Z.of_nat ((4 + j) * (4 + j)), Z.of_nat j).
Proof.
  assert (H : length [(1, 2); (0, 0); (8, 1)]%Z = 3) by reflexivity.
  split; [exact H|].
  exact (fill_overwrites_everything (λ c, Z.of_nat (c * c)) 3 4 _ H).
Defined.

Lemma fill_generated (draw : draws) (n c : nat) (v : list mypair) :
  length v = n → fill draw n (v, c) = (generated draw c n, c + n).
Proof.
  intros Hlen. unfold fill. rewrite fill_from_spec by done. by rewrite take_0.
Qed.

Lemma sort_perm_eq (l l' : list mypair) :
  l ≡ₚ l' → stable_sort_list pair_lt l = stable_sort_list pair_lt l'.
Proof.
  intros Hp. apply pair_sorted_unique; [apply pair_sort_sorted..|].
  by rewrite !stable_sort_list_perm.
Qed.

Lemma presort_quarter (n : nat) (v : list mypair) :
  n / 4 ≤ length v →
  presort QUARTERSORT n v
  = stable_sort_list pair_lt (take (n / 4) v) ++ drop (n / 4) v.
Proof.
  intros Hq. unfold presort, std_stable_sort, splice, range. simpl.
  by rewrite drop_0, Nat.sub_0_r.
Qed.

Lemma quarter_le (n : nat) : n / 4 ≤ n.
Proof. apply Nat.Div0.div_le_upper_bound. lia. Qed.

Lemma presort_perm (checktype : Checktype) (v : list mypair) :
  presort checktype (length v) v ≡ₚ v.
Proof.
  destruct checktype; [done| |].
  - change (presort SORT (length v) v) with (sequential_stable_sort v).
    rewrite sequential_stable_sort_eq. apply stable_sort_list_perm.
  - rewrite presort_quarter by apply quarter_le.
    rewrite stable_sort_list_perm. by rewrite take_drop.
Qed.

(** X10. The pre-sorting step of [elapsed_time] only rearranges the vector:
    [RANDOM] leaves it as it is, [SORT] puts all of it in order, and
    [QUARTERSORT] puts the first [n / 4] elements in order among themselves
    and leaves every later position untouched. *)
Theorem presort_spec (checktype : Checktype) (v : list mypair) :
  let n := length v in
  let p := presort checktype n v in
  p ≡ₚ v
  ∧ match checktype with
    | RANDOM => p = v
    | SORT => Sorted pair_le p
    | QUARTERSORT =>
        Sorted pair_le (take (n / 4) p)
        ∧ take (n / 4) p ≡ₚ take (n / 4) v
        ∧ drop (n / 4) p = drop (n / 4) v
    end.
Proof.
  intros n p. unfold p. destruct checktype.
  - done.
  - change (presort SORT n v) with (sequential_stable_sort v).
    rewrite sequential_stable_sort_eq.
    split; [apply stable_sort_list_perm|apply pair_sort_sorted].
  - pose proof (quarter_le n) as Hq. rewrite presort_quarter by done.
    assert (Hlen : length (stable_sort_list pair_lt (take (n / 4) v)) = n / 4).
    { rewrite stable_sort_list_length, length_take. unfold n in *. lia. }
    rewrite take_app_length', drop_app_length' by done.
    split_and!; [|apply pair_sort_sorted|apply stable_sort_list_perm|done].
    rewrite stable_sort_list_perm. by rewrite take_drop.
Qed.

Lemma timed_after_presort checktype f sched (v : list mypair) :
  run_timed f sched (presort checktype (length v) v)
  = Some (stable_sort_list pair_lt v).
Proof.
  rewrite run_timed_sorts. f_equal. apply sort_perm_eq, presort_perm.
Qed.

Lemma elapsed_time_rounds_spec checktype f sched (draw : draws) (n : nat) :
  ∀ rounds v c,
    length v = n →
    elapsed_time_rounds (S rounds) checktype f sched draw n (v, c)
    = Some (stable_sort_list pair_lt (generated draw (c + rounds * n) n),
            c + S rounds * n).
Proof.
  induction rounds as [|rounds IH]; intros v c Hlen.
  - simpl elapsed_time_rounds. rewrite fill_generated by done. simpl.
    rewrite <- (generated_length draw c n) at 1. rewrite timed_after_presort.
    simpl. by rewrite !Nat.add_0_r.
  - change (elapsed_time_rounds (S (S rounds)) checktype f sched draw n (v, c))
      with (let st := fill draw n (v, c) in
            v ← run_timed f sched (presort checktype n st.1);
            elapsed_time_rounds (S rounds) checktype f sched draw n (v, st.2)).
    cbv zeta. rewrite fill_generated by done. simpl fst. simpl snd.
    rewrite <- (generated_length draw c n) at 1. rewrite timed_after_presort.
    change (Some ?x ≫= ?k) with (k x). cbv beta.
    rewrite IH by by rewrite stable_sort_list_length, generated_length.
    replace (c + n + rounds * n) with (c + S rounds * n) by lia.
    replace (c + n + S rounds * n) with (c + S (S rounds) * n) by lia.
    done.
Qed.

Lemma debug_check_sorted (v : list mypair) :
  Sorted pair_le v → elapsed_time_debug_check v = Some true.
Proof.
  intros Hs. unfold elapsed_time_debug_check.
  rewrite sequential_stable_sort_eq, pair_sort_of_sorted by done.
  apply vec_check_refl.
Qed.

Lemma elapsed_time_eq (checktype : Checktype) (f : timed) (sched : schedule)
    (draw : draws) (n c : nat) :
  elapsed_time checktype f sched draw n c
  = Some (stable_sort_list pair_lt (generated draw (c + 9 * n) n),
          Some true, c + 10 * n).
Proof.
  unfold elapsed_time, CHECKLOOP.
  rewrite elapsed_time_rounds_spec by apply length_replicate.
  simpl. by rewrite debug_check_sorted by apply pair_sort_sorted.
Qed.

(** X11. [elapsed_time] always returns, and its [DEBUG] check always passes.
    What it leaves in the vector is the sorted form of the keys drawn in
    the tenth round, whatever the [Checktype], the function timed and the
    order the tasks ran in; it makes exactly [10 * n] draws. *)
Theorem elapsed_time_result (checktype : Checktype) (f : timed) (sched : schedule)
    (draw : draws) (n c : nat) :
  elapsed_time checktype f sched draw n c
  = Some (stable_sort_list pair_lt (generated draw (c + 9 * n) n),
          Some true, c + 10 * n)
  ∧ stable_sort_list pair_lt (generated draw (c + 9 * n) n)
    ≡ₚ generated draw (c + 9 * n) n
  ∧ Sorted pair_le (stable_sort_list pair_lt (generated draw (c + 9 * n) n)).
Proof.
  split; [apply elapsed_time_eq|].
  split; [apply stable_sort_list_perm|apply pair_sort_sorted].
Qed.

Lemma generated_ties (draw : draws) (c n : nat) :
  ties_in_index_order (generated draw c n).
Proof.
  intros i j x y [-> _]%generated_lookup [-> _]%generated_lookup Hij _.
  unfold original_index. simpl. lia.
Qed.

(** X12. On the data the harness generates, every timed function is stable
    in the plain sense, under each [Checktype]: for every key, the records
    with that key come out in the order in which they were generated. *)
Theorem harness_data_sorted_stably (checktype : Checktype) (f : timed)
    (sched : schedule) (draw : draws) (c n : nat) :
  ∃ out, run_timed f sched (presort checktype n (generated draw c n)) = Some out
         ∧ ∀ k, with_key k out = with_key k (generated draw c n).
Proof.
  exists (stable_sort_list pair_lt (generated draw c n)). split.
  - rewrite <- (generated_length draw c n) at 1. apply timed_after_presort.
  - intros k. apply sort_keeps_ties, generated_ties.
Qed.

(** X13. With keys drawn from [[1, n / 10]], as [check_performance] sets the
    distribution up, a generated vector never has pairwise distinct keys:
    every measurement sorts records that share keys. *)
Theorem generated_keys_repeat (draw : draws) (c n : nat) :
  0 < n →
  (∀ i, (1 ≤ draw i ≤ Z.of_nat n `quot` 10)%Z) →
  ¬ NoDup (key <$> generated draw c n).
Proof.
  intros Hn Hdraw Hnd.
  assert (Hsub : key <$> generated draw c n ⊆+ seqZ 1 (Z.of_nat n `quot` 10)).
  { apply NoDup_submseteq; [done|]. intros k Hk.
    apply list_elem_of_fmap in Hk as (r & -> & Hr).
    apply list_elem_of_lookup in Hr as (j & [-> _]%generated_lookup).
    apply elem_of_seqZ. unfold key. simpl. specialize (Hdraw (c + j)). lia. }
  apply submseteq_length in Hsub.
  rewrite length_fmap, generated_length, length_seqZ in Hsub.
  assert (Z.of_nat n `quot` 10 < Z.of_nat n)%Z by (apply Z.quot_lt; lia).
  lia.
Qed.

Lemma generated_keys_repeat_witness :
  0 < 20
  ∧ (∀ i, (1 ≤ (λ i, 1 + Z.of_nat (i `mod` 2)) i ≤ Z.of_nat 20 `quot` 10)%Z)
  ∧ ¬ NoDup (key <$> generated (λ i, 1 + Z.of_nat (i `mod` 2))%Z 0 20).
Proof.
  assert (H1 : 0 < 20) by lia.
  assert (H2 : ∀ i, (1 ≤ (λ i, 1 + Z.of_nat (i `mod` 2)) i ≤ Z.of_nat 20 `quot` 10)%Z).
  { intros i. pose proof (Nat.mod_upper_bound i 2).
    change (Z.of_nat 20 `quot` 10)%Z with 2%Z. simpl. lia. }
  split; [exact H1|]. split; [exact H2|].
  exact (generated_keys_repeat _ 0 20 H1 H2).
Defined.

(** ** The sizes measured *)

Lemma int32_mul_small (n k : Z) :
  (- 2 ^ 31 ≤ n * k < 2 ^ 31)%Z → int32_mul n k = (n * k)%Z.
Proof. intros H. unfold int32_mul. rewrite Z.mod_small; lia. Qed.

Lemma inner_two_rows {St : Type} (row : Z → St → St) (i : nat) (n : Z) (s : St) :
  i ≠ 6 →
  check_performance_inner row i 0 2 (n, s)
  = (int32_mul n 5, row (int32_mul n 5) (row n s)).
Proof.
  intros Hi. cbn -[int32_mul]. rewrite (decide_False (P := i = 6)) by done.
  cbn -[int32_mul]. by rewrite (decide_False (P := i = 6)) by done.
Qed.

Lemma inner_last_row {St : Type} (row : Z → St → St) (n : Z) (s : St) :
  check_performance_inner row 6 0 2 (n, s) = (n, row n s).
Proof. done. Qed.

Lemma outer_step {St : Type} (row : Z → St → St) (i todo : nat) (st : Z * St) :
  check_performance_outer row i (S todo) st
  = check_performance_outer row (S i) todo
      (int32_mul (check_performance_inner row i 0 2 st).1 2,
       (check_performance_inner row i 0 2 st).2).
Proof. done. Qed.

Lemma decade {St : Type} (row : Z → St → St) (i todo : nat) (n : Z) (s : St) :
  i ≠ 6 → (0 < n)%Z → (10 * n < 2 ^ 31)%Z →
  check_performance_outer row i (S todo) (n, s)
  = check_performance_outer row (S i) todo
      ((n * 10)%Z, row (n * 5)%Z (row n s)).
Proof.
  intros Hi Hpos Hmax. rewrite outer_step, inner_two_rows by done.
  cbn [fst snd]. rewrite (int32_mul_small n 5) by lia.
  rewrite (int32_mul_small (n * 5) 2) by lia. do 2 f_equal. lia.
Qed.

Lemma check_performance_unroll {St : Type} (row : Z → St → St) (n0 : Z) (s : St) :
  (0 < n0)%Z → (2000000 * n0 < 2 ^ 31)%Z →
  check_performance_from row n0 s
  = ((2000000 * n0)%Z, foldl (λ s n, row n s) s (sizes_from n0)).
Proof.
  intros Hpos Hmax. unfold check_performance_from, sizes_from.
  rewrite decade by lia. rewrite decade by lia. rewrite decade by lia.
  rewrite decade by lia. rewrite decade by lia. rewrite decade by lia.
  rewrite outer_step, inner_last_row. cbn [fst snd check_performance_outer].
  rewrite int32_mul_small by lia.
  cbn [foldl fmap list_fmap].
  replace (n0 * 1)%Z with n0 by lia.
  replace (n0 * 10 * 5)%Z with (n0 * 50)%Z by lia.
  replace (n0 * 10 * 10)%Z with (n0 * 100)%Z by lia.
  replace (n0 * 100 * 5)%Z with (n0 * 500)%Z by lia.
  replace (n0 * 100 * 10)%Z with (n0 * 1000)%Z by lia.
  replace (n0 * 1000 * 5)%Z with (n0 * 5000)%Z by lia.
  replace (n0 * 1000 * 10)%Z with (n0 * 10000)%Z by lia.
  replace (n0 * 10000 * 5)%Z with (n0 * 50000)%Z by lia.
  replace (n0 * 10000 * 10)%Z with (n0 * 100000)%Z by lia.
  replace (n0 * 100000 * 5)%Z with (n0 * 500000)%Z by lia.
  replace (n0 * 100000 * 10)%Z with (n0 * 1000000)%Z by lia.
  f_equal. lia.
Qed.

(** ** A whole run of the harness *)

Lemma quot10_pos (n : Z) : (10 ≤ n)%Z → (1 ≤ n `quot` 10)%Z.
Proof. intros Hn. apply Z.quot_le_lower_bound; lia. Qed.

Lemma sizes_from_bounds (n0 : Z) :
  (10 ≤ n0)%Z → (2000000 * n0 < 2 ^ 31)%Z →
  Forall (λ n, 10 ≤ n < 2 ^ 31 ∧ 1 ≤ n `quot` 10)%Z (sizes_from n0).
Proof.
  intros Hlo Hhi. unfold sizes_from. cbn [fmap list_fmap].
  repeat (constructor; [split; [lia|apply quot10_pos; lia]|]). constructor.
Qed.

Lemma measure_spec draw_in checktype sched (n : Z) (f : timed) (c : nat)
    (l : list (option bool)) :
  (10 ≤ n)%Z →
  measure (uniform_int_distribution draw_in 1 (n `quot` 10)%Z) checktype sched n f
    (Some (c, l))
  = Some (c + 10 * Z.to_nat n, l ++ [Some true]).
Proof.
  intros Hn. unfold measure, uniform_int_distribution, vector_size.
  rewrite (decide_True (P := (1 ≤ n `quot` 10)%Z)) by by apply quot10_pos.
  rewrite (decide_True (P := (0 ≤ n)%Z)) by lia.
  cbn [mbind option_bind]. by rewrite elapsed_time_eq.
Qed.

Lemma measure_row_spec draw_in checktype sched (n : Z) (r : report) :
  (10 ≤ n)%Z →
  measure_row draw_in checktype sched n (Some r)
  = Some {| drawn := drawn r + 50 * Z.to_nat n;
            rows := rows r ++ [(n, replicate 5 (Some true))] |}.
Proof.
  intros Hn. unfold measure_row, timed_functions. cbn [mbind option_bind foldl].
  rewrite !measure_spec by done. cbn [mbind option_bind fst snd app replicate].
  do 2 f_equal. lia.
Qed.

Lemma measure_rows_spec draw_in checktype sched (l : list Z) :
  Forall (λ n, 10 ≤ n)%Z l →
  ∀ r, ∃ d,
    foldl (λ s n, measure_row draw_in checktype sched n s) (Some r) l
    = Some {| drawn := d;
              rows := rows r ++ ((λ n, (n, replicate 5 (Some true))) <$> l) |}.
Proof.
  induction 1 as [|n l Hn Hl IH]; intros r.
  - exists (drawn r). cbn [foldl fmap list_fmap]. rewrite app_nil_r. by destruct r.
  - cbn [foldl]. rewrite measure_row_spec by done.
    destruct (IH {| drawn := drawn r + 50 * Z.to_nat n;
                    rows := rows r ++ [(n, replicate 5 (Some true))] |}) as [d ->].
    exists d. cbn [rows fmap list_fmap]. by rewrite <- app_assoc.
Qed.

Lemma sizes_from_ge10 (n0 : Z) :
  (10 ≤ n0)%Z → (2000000 * n0 < 2 ^ 31)%Z → Forall (λ n, 10 ≤ n)%Z (sizes_from n0).
Proof.
  intros Hlo Hhi. eapply Forall_impl; [by apply sizes_from_bounds|].
  intros n. cbv beta. lia.
Qed.

(** X14. Started at any [n0] with [10 ≤ n0] and [2000000 * n0 < 2^31], the
    two loops of [check_performance] measure thirteen rows, at the sizes
    [n0] times 1, 5, 10, 50, ..., 500000, 1000000 in this order (the last
    decade has one row only); [n] never leaves the range of an [int] and the
    loops end with [n = 2000000 * n0].  At every one of these sizes the
    distribution over [[1, n / 10]] is well formed, so the rows the program
    measures are all taken and all their checks pass. *)
Theorem check_performance_sizes {St : Type} (row : Z → St → St) (n0 : Z) (s : St) :
  (10 ≤ n0)%Z → (2000000 * n0 < 2 ^ 31)%Z →
  check_performance_from row n0 s
  = ((2000000 * n0)%Z, foldl (λ s n, row n s) s (sizes_from n0))
  ∧ length (sizes_from n0) = 13
  ∧ Forall (λ n, n0 ≤ n < 2 ^ 31)%Z (sizes_from n0)
  ∧ Forall (λ n, 1 ≤ n `quot` 10)%Z (sizes_from n0)
  ∧ ∀ draw_in checktype sched c,
      ∃ r, (check_performance_from (measure_row draw_in checktype sched) n0
              (Some {| drawn := c; rows := [] |})).2 = Some r
           ∧ rows r = (λ n, (n, replicate 5 (Some true))) <$> sizes_from n0.
Proof.
  intros Hlo Hmax. split; [apply check_performance_unroll; lia|]. split; [done|].
  split_and!.
  - unfold sizes_from. cbn [fmap list_fmap]. repeat (constructor; [lia|]). constructor.
  - eapply Forall_impl; [by apply sizes_from_bounds|]. intros n. cbv beta. lia.
  - intros draw_in checktype sched c.
    rewrite check_performance_unroll by lia. cbn [snd].
    destruct (measure_rows_spec draw_in checktype sched (sizes_from n0)
                (sizes_from_ge10 n0 Hlo Hmax) {| drawn := c; rows := [] |}) as [d ->].
    eexists. split; [done|]. done.
Qed.

Lemma check_performance_sizes_witness :
  (10 ≤ N)%Z ∧ (2000000 * N < 2 ^ 31)%Z
  ∧ check_performance_from (λ n (s : list Z), s ++ [n]) N []
    = ((2000000 * N)%Z, foldl (λ s n, s ++ [n]) [] (sizes_from N)).
Proof.
  assert (H1 : (10 ≤ N)%Z) by (unfold N; lia).
  assert (H2 : (2000000 * N < 2 ^ 31)%Z) by (unfold N; lia).
  split; [exact H1|]. split; [exact H2|].
  exact (proj1 (check_performance_sizes (λ n (s : list Z), s ++ [n]) N [] H1 H2)).
Defined.

(** X15. A run of [check_performance] goes through all thirteen sizes from
    100 to 100000000 and, for each [Checktype], whatever the random engine
    delivers and in whatever order the tasks run, every [DEBUG] check of
    every timed function passes: no error is ever reported. *)
Theorem check_performance_never_reports (draw_in : Z → Z → draws)
    (checktype : Checktype) (sched : schedule) (c : nat) :
  ∃ r, check_performance draw_in checktype sched c = Some r
       ∧ rows r = (λ n, (n, replicate 5 (Some true))) <$> sizes_from N
       ∧ (rows r).*1 =
         [100; 500; 1000; 5000; 10000; 50000; 100000; 500000; 1000000;
          5000000; 10000000; 50000000; 100000000]%Z.
Proof.
  unfold check_performance.
  rewrite check_performance_unroll by (unfold N; lia). cbn [snd].
  destruct (measure_rows_spec draw_in checktype sched (sizes_from N)
              (sizes_from_ge10 N ltac:(unfold N; lia) ltac:(unfold N; lia))
              {| drawn := c; rows := [] |}) as [d ->].
  eexists. split; [done|]. cbn [rows app]. split; [done|].
  rewrite <- list_fmap_compose. unfold sizes_from, N. cbn [fmap list_fmap compose fst].
  repeat (f_equal; [lia|]). done.
Qed.

(** ** How evenly the work is cut *)

Lemma div2_unique (x y r : nat) : x = 2 * y + r → r < 2 → x / 2 = y.
Proof. intros Hx Hr. symmetry. by apply (Nat.div_unique x 2 y r). Qed.

Lemma leaf_sizes_mono (lo hi lo' hi' : nat) (e : event) :
  lo' ≤ lo → hi ≤ hi' → leaf_sizes lo hi e → leaf_sizes lo' hi' e.
Proof. destruct e; simpl; lia. Qed.

(** Both halves of a range keep within the floor and the ceiling of the
    range's share per segment. *)
Lemma halves_share (len p : nat) :
  0 < p → 1 < len →
  let h1 := len / 2 in
  let h2 := len - len / 2 in
  len / (2 * p) ≤ h1 / p ∧ len / (2 * p) ≤ h2 / p
  ∧ (h1 + p - 1) / p ≤ (len + 2 * p - 1) / (2 * p)
  ∧ (h2 + p - 1) / p ≤ (len + 2 * p - 1) / (2 * p).
Proof.
  intros Hp Hlen h1 h2. destruct (half_spec len) as (r & Hhalf & Hr).
  assert (Hlo : len / (2 * p) = h1 / p) by (unfold h1; by rewrite Nat.Div0.div_div).
  assert (Hhi : (len + 2 * p - 1) / (2 * p) = (h2 + p - 1) / p).
  { rewrite <- Nat.Div0.div_div. f_equal. unfold h2.
    destruct (decide (r = 0)) as [->|].
    - apply (div2_unique _ _ 1); lia.
    - apply (div2_unique _ _ 0); lia. }
  rewrite Hlo, Hhi. split_and!; [done| |apply Nat.Div0.div_le_mono|done].
  - apply Nat.Div0.div_le_mono. unfold h1, h2. lia.
  - unfold h1, h2. lia.
Qed.

Lemma call_events_leaf_sizes threshold fuel :
  ∀ sched first last reci,
    last - first < fuel → depth_in_range threshold reci →
    let p := 2 ^ Z.to_nat (threshold - reci) in
    Forall (leaf_sizes ((last - first) / p) ((last - first + p - 1) / p))
      (call_events threshold fuel sched first last reci).
Proof.
  induction fuel as [|fuel IH]; intros sched first last reci Hfuel Hin; [lia|].
  cbv zeta. rewrite call_events_unfold.
  destruct (decide (last - first ≤ 1)) as [Hshort|Hlong]; [constructor|].
  destruct Hin as [Hr Ht].
  destruct (decide (int32_incr reci ≤ threshold)%Z) as [Hgate|Hgate].
  2:{ rewrite int32_incr_small in Hgate by lia.
      replace (Z.to_nat (threshold - reci)) with 0 by lia.
      change (2 ^ 0) with 1. rewrite !Nat.div_1_r.
      constructor; [simpl; lia|constructor]. }
  assert (Hi : int32_incr reci = (reci + 1)%Z) by (apply int32_incr_small; lia).
  assert (Hin : depth_in_range threshold (int32_incr reci))
    by (unfold depth_in_range; lia).
  pose proof (midpoint_inside first last Hlong) as Hmid.
  set (middle := first + (last - first) / 2) in *.
  pose proof (IH sched first middle (int32_incr reci)) as Hlo.
  pose proof (IH sched middle last (int32_incr reci)) as Hup.
  cbv zeta in Hlo, Hup. specialize (Hlo ltac:(lia) Hin). specialize (Hup ltac:(lia) Hin).
  replace (Z.to_nat (threshold - reci))
    with (S (Z.to_nat (threshold - int32_incr reci))) by lia.
  rewrite Nat.pow_succ_r'.
  set (p := 2 ^ Z.to_nat (threshold - int32_incr reci)) in *.
  assert (Hp : 0 < p) by (pose proof (pow2_pos (Z.to_nat (threshold - int32_incr reci))); lia).
  destruct (halves_share (last - first) p Hp) as (H1 & H2 & H3 & H4); [lia|].
  replace (middle - first) with ((last - first) / 2) in Hlo by (unfold middle; lia).
  replace (last - middle) with (last - first - (last - first) / 2) in Hup
    by (unfold middle; lia).
  assert (Hlo' : Forall (leaf_sizes ((last - first) / (2 * p))
                           ((last - first + 2 * p - 1) / (2 * p)))
                   (call_events threshold fuel sched first middle (int32_incr reci))).
  { eapply Forall_impl; [exact Hlo|]. intros e. by apply leaf_sizes_mono. }
  assert (Hup' : Forall (leaf_sizes ((last - first) / (2 * p))
                           ((last - first + 2 * p - 1) / (2 * p)))
                   (call_events threshold fuel sched middle last (int32_incr reci))).
  { eapply Forall_impl; [exact Hup|]. intros e. by apply leaf_sizes_mono. }
  constructor; [done|]. apply Forall_app. split; [|by repeat constructor].
  destruct (sched first last); by apply Forall_app.
Qed.

(** X16. The segments a two-argument overload hands to [std::stable_sort]
    differ in length by at most one: for a vector of [n] elements each has
    between [n / 8] and [(n + 7) / 8] elements. *)
Theorem sequential_segments_balanced (b : backend) (sched : schedule)
    (v : list mypair) :
  ∃ m, parallel_stable_sort b sched v = Some m
       ∧ Forall (leaf_sizes (length v / 8) ((length v + 7) / 8)) (trace m).
Proof.
  destruct (entry_trace b sched v) as (m & Hrun & _ & Ht).
  exists m. split; [done|]. rewrite Ht.
  pose proof (call_events_leaf_sizes THRESHOLD (enough_fuel 0 (length v)) sched
                0 (length v) 0) as H.
  cbv zeta in H. rewrite Nat.sub_0_r in H.
  change (2 ^ Z.to_nat (THRESHOLD - 0)) with 8 in H.
  replace (length v + 8 - 1) with (length v + 7) in H by lia.
  apply H; [unfold enough_fuel; lia|unfold depth_in_range, THRESHOLD; lia].
Qed.

Lemma sequentially_sorted_app (t1 t2 : list event) :
  sequentially_sorted (t1 ++ t2) = sequentially_sorted t1 + sequentially_sorted t2.
Proof. induction t1 as [|e t1 IH]; [done|]. destruct e; simpl; rewrite IH; lia. Qed.

Lemma call_events_cover threshold fuel :
  ∀ sched first last reci,
    last - first < fuel →
    let evs := call_events threshold fuel sched first last reci in
    sequentially_sorted evs ≤ last - first
    ∧ (depth_in_range threshold reci →
       2 * 2 ^ Z.to_nat (threshold - reci) ≤ last - first →
       sequentially_sorted evs = last - first).
Proof.
  induction fuel as [|fuel IH]; intros sched first last reci Hfuel; [lia|].
  cbv zeta. rewrite call_events_unfold.
  destruct (decide (last - first ≤ 1)) as [Hshort|Hlong].
  { simpl. split; [lia|]. intros _ Hbig.
    pose proof (pow2_pos (Z.to_nat (threshold - reci))). lia. }
  destruct (decide (int32_incr reci ≤ threshold)%Z) as [Hgate|Hgate];
    [|simpl; lia].
  pose proof (midpoint_inside first last Hlong) as Hmid.
  destruct (half_spec (last - first)) as (r & Hhalf & Hr).
  set (middle := first + (last - first) / 2) in *.
  destruct (IH sched first middle (int32_incr reci)) as (Hle1 & Heq1); [lia|].
  destruct (IH sched middle last (int32_incr reci)) as (Hle2 & Heq2); [lia|].
  set (lower := call_events threshold fuel sched first middle (int32_incr reci)) in *.
  set (upper := call_events threshold fuel sched middle last (int32_incr reci)) in *.
  assert (Hsum : sequentially_sorted
                   (EvSpawn first middle last (int32_incr reci)
                      :: (if sched first last then lower ++ upper else upper ++ lower)
                      ++ [EvInplaceMerge first middle last])
                 = sequentially_sorted lower + sequentially_sorted upper).
  { cbn [sequentially_sorted]. rewrite sequentially_sorted_app. simpl.
    destruct (sched first last); rewrite sequentially_sorted_app; lia. }
  rewrite Hsum. split; [lia|]. intros [Hrange Ht] Hbig.
  assert (Hi : int32_incr reci = (reci + 1)%Z) by (apply int32_incr_small; lia).
  assert (Hin : depth_in_range threshold (int32_incr reci))
    by (unfold depth_in_range; lia).
  assert (Hpow : 2 ^ Z.to_nat (threshold - reci)
                 = 2 * 2 ^ Z.to_nat (threshold - int32_incr reci)).
  { rewrite Hi. replace (Z.to_nat (threshold - reci))
      with (S (Z.to_nat (threshold - (reci + 1)))) by lia.
    by rewrite Nat.pow_succ_r'. }
  rewrite Hpow in Hbig.
  rewrite Heq1, Heq2 by (done || lia). lia.
Qed.

Lemma times_sorted_app (x : nat) (t1 t2 : list event) :
  times_sorted x (t1 ++ t2) = times_sorted x t1 + times_sorted x t2.
Proof. induction t1 as [|e t1 IH]; [done|]. destruct e; simpl; rewrite IH; lia. Qed.

(** A position outside the range of a call is in none of its segments, a
    position inside in at most one, and in exactly one when the range is
    long enough for every branch to reach [std::stable_sort]. *)
Lemma call_events_times threshold fuel :
  ∀ sched first last reci x,
    last - first < fuel →
    let evs := call_events threshold fuel sched first last reci in
    (¬ first ≤ x < last → times_sorted x evs = 0)
    ∧ times_sorted x evs ≤ 1
    ∧ (depth_in_range threshold reci →
       2 * 2 ^ Z.to_nat (threshold - reci) ≤ last - first →
       first ≤ x < last → times_sorted x evs = 1).
Proof.
  induction fuel as [|fuel IH]; intros sched first last reci x Hfuel; [lia|].
  cbv zeta. rewrite call_events_unfold.
  destruct (decide (last - first ≤ 1)) as [Hshort|Hlong].
  { simpl. split_and!; [done|lia|]. intros _ Hbig.
    pose proof (pow2_pos (Z.to_nat (threshold - reci))). lia. }
  destruct (decide (int32_incr reci ≤ threshold)%Z) as [Hgate|Hgate].
  2:{ simpl. destruct (decide (first ≤ x < last)); split_and!; done || lia. }
  pose proof (midpoint_inside first last Hlong) as Hmid.
  destruct (half_spec (last - first)) as (r & Hhalf & Hr).
  set (middle := first + (last - first) / 2) in *.
  destruct (IH sched first middle (int32_incr reci) x) as (Hout1 & Hle1 & Heq1); [lia|].
  destruct (IH sched middle last (int32_incr reci) x) as (Hout2 & Hle2 & Heq2); [lia|].
  set (lower := call_events threshold fuel sched first middle (int32_incr reci)) in *.
  set (upper := call_events threshold fuel sched middle last (int32_incr reci)) in *.
  assert (Hsum : times_sorted x
                   (EvSpawn first middle last (int32_incr reci)
                      :: (if sched first last then lower ++ upper else upper ++ lower)
                      ++ [EvInplaceMerge first middle last])
                 = times_sorted x lower + times_sorted x upper).
  { cbn [times_sorted]. rewrite times_sorted_app. simpl.
    destruct (sched first last); rewrite times_sorted_app; lia. }
  rewrite Hsum.
  assert (Hside : times_sorted x lower = 0 ∨ times_sorted x upper = 0).
  { destruct (decide (x < middle)); [right; apply Hout2|left; apply Hout1]; lia. }
  split_and!.
  - intros Hout. rewrite Hout1, Hout2 by lia. done.
  - lia.
  - intros [Hrange Ht] Hbig Hx.
    assert (Hi : int32_incr reci = (reci + 1)%Z) by (apply int32_incr_small; lia).
    assert (Hin : depth_in_range threshold (int32_incr reci))
      by (unfold depth_in_range; lia).
    assert (Hpow : 2 ^ Z.to_nat (threshold - reci)
                   = 2 * 2 ^ Z.to_nat (threshold - int32_incr reci)).
    { rewrite Hi. replace (Z.to_nat (threshold - reci))
        with (S (Z.to_nat (threshold - (reci + 1)))) by lia.
      by rewrite Nat.pow_succ_r'. }
    rewrite Hpow in Hbig.
    destruct (decide (x < middle)).
    + rewrite Heq1, Hout2 by (done || lia). done.
    + rewrite Hout1, Heq2 by (done || lia). done.
Qed.

(** X17. No element is handed to [std::stable_sort] twice: every position of
    the vector lies in at most one of the segments sorted sequentially, so
    these segments hold at most as many elements as the vector; for a
    vector of 16 or more elements every position lies in exactly one of
    them, and they hold all of its elements. *)
Theorem sequential_segments_cover (b : backend) (sched : schedule) (v : list mypair) :
  ∃ m, parallel_stable_sort b sched v = Some m
       ∧ (∀ x, times_sorted x (trace m) ≤ 1)
       ∧ (∀ x, length v ≤ x → times_sorted x (trace m) = 0)
       ∧ sequentially_sorted (trace m) ≤ length v
       ∧ (16 ≤ length v →
          (∀ x, x < length v → times_sorted x (trace m) = 1)
          ∧ sequentially_sorted (trace m) = length v).
Proof.
  destruct (entry_trace b sched v) as (m & Hrun & _ & Ht).
  exists m. split; [done|]. rewrite Ht.
  destruct (call_events_cover THRESHOLD (enough_fuel 0 (length v)) sched
              0 (length v) 0) as (Hle & Heq); [unfold enough_fuel; lia|].
  rewrite Nat.sub_0_r in *.
  assert (Hroom : 2 ^ Z.to_nat (THRESHOLD - 0) = 8) by done.
  assert (Hin : depth_in_range THRESHOLD 0) by (unfold depth_in_range, THRESHOLD; lia).
  split_and!.
  - intros x.
    destruct (call_events_times THRESHOLD (enough_fuel 0 (length v)) sched
                0 (length v) 0 x) as (_ & H & _); [unfold enough_fuel; lia|done].
  - intros x Hx.
    destruct (call_events_times THRESHOLD (enough_fuel 0 (length v)) sched
                0 (length v) 0 x) as (H & _ & _); [unfold enough_fuel; lia|].
    apply H. lia.
  - done.
  - intros Hbig. split.
    + intros x Hx.
      destruct (call_events_times THRESHOLD (enough_fuel 0 (length v)) sched
                  0 (length v) 0 x) as (_ & _ & H); [unfold enough_fuel; lia|].
      apply H; [done|rewrite Hroom, Nat.sub_0_r; lia|lia].
    + apply Heq; [done|rewrite Hroom; lia].
Qed.

Lemma sequential_segments_cover_witness :
  let v := ((λ k, (k, k)) <$> [9; 8; 7; 6; 5; 4; 3; 2; 1; 0; 9; 8; 7; 6; 5; 4; 3])%Z in
  16 ≤ length v
  ∧ ∃ m, parallel_stable_sort TBB left_first v = Some m
         ∧ (∀ x, x < length v → times_sorted x (trace m) = 1)
         ∧ sequentially_sorted (trace m) = length v.
Proof.
  intros v. assert (H : 16 ≤ length v) by (simpl; lia).
  split; [exact H|].
  destruct (sequential_segments_cover TBB left_first v)
    as (m & Hrun & _ & _ & _ & Hall).
  exists m. split; [exact Hrun|exact (Hall H)].
Defined.
